(** * Halite game environment: toroidal map geometry and match set-up

    A shallow embedding of [src/environment/model/Map.cpp] (the wrap-around
    grid arithmetic and the bot serial format of a map) and of
    [src/environment/main.cpp] (command-line handling, bot launching, player
    count validation and the final statistics report), followed by the
    properties the specification states about them.

    Conventions of the embedding.
    - C++ integers are [Z].  The operator [%] truncates towards zero, which is
      [Z.rem]; [abs] is [Z.abs]; [std::min] is [Z.min].  Conversions to
      [unsigned short] and [unsigned int] are written out as reductions modulo
      [2^16] and [2^32].
    - An output stream is the text written to it so far; [os << v] appends.
      The overloads of [operator<<] form the class [Streamable].
    - [main] runs in a small monad that logs the observable events (text on
      standard output, bot launches, game creation) and supports [exit] and
      C++ exceptions. *)

From Stdlib Require Import ZArith List String Ascii Bool Lia DecimalString.
From Stdlib Require DecimalPos DecimalZ.
Import ListNotations.

Local Open Scope Z_scope.

(* ================================================================== *)
(** * Output streams *)
(* ================================================================== *)

Definition ostream := string.

(** [operator<<] for a type [A]: the text appended to the stream. *)
Class Streamable (A : Type) := stream_out : A -> string.

Definition shl {A} `{Streamable A} (os : ostream) (v : A) : ostream :=
  (os ++ stream_out v)%string.

Notation "os << v" := (shl os v) (at level 51, left associativity).

(** Integers print in decimal, with a leading minus sign when negative. *)
#[global] Instance Streamable_Z : Streamable Z :=
  fun z => NilZero.string_of_int (Z.to_int z).

#[global] Instance Streamable_string : Streamable string := fun s => s.

#[global] Instance Streamable_ascii : Streamable ascii :=
  fun c => String c EmptyString.

(** [std::endl] and the tab character. *)
Definition endl : string := String (ascii_of_nat 10) EmptyString.
Definition tab : string := String (ascii_of_nat 9) EmptyString.

(* ================================================================== *)
(** * Map.cpp *)
(* ================================================================== *)

Module hlt.

(** Modelled from the spec: [dimension_type] is declared in [Map.hpp], which
    is not among the sources.  The spec has coordinates and dimensions as
    integers; [Map.cpp] applies [abs] and subtraction below zero to the type,
    so it is a signed integer type, and signed overflow being undefined in
    C++, its arithmetic is that of [Z].  On in-bounds coordinates every
    intermediate value of [Map.cpp] lies between [- W] and [2 * W] (or
    [- H] and [2 * H]). *)
Definition dimension_type := Z.

(** Modelled from the spec: [Location] ([Map.hpp]) is an integer pair (x,y);
    [Map.cpp] reads it with [first] and [second]. *)
Definition Location := (dimension_type * dimension_type)%type.

(** Modelled from the spec: [Direction] ([Map.hpp]) is one of North, South,
    East and West, the four cases of the switch in [move_location]. *)
Inductive Direction := North | South | East | West.

(** Modelled from the spec: [Map::NEIGHBOR_COUNT] ([Map.hpp]); a cell has 4
    neighbors, the four entries of the array built by [get_neighbors]. *)
Definition NEIGHBOR_COUNT : nat := 4.

(** Modelled from the spec: the class [Map] ([Map.hpp]) is a width, a height
    and a grid of cells; the cell type and its [operator<<] are parameters. *)
Record Map {Cell : Type} := mkMap {
  width : dimension_type;
  height : dimension_type;
  grid : list (list Cell)
}.
Arguments Map : clear implicits.
Arguments mkMap {Cell} _ _ _.

Section Geometry.
Context {Cell : Type}.
Variable map : Map Cell.

(** [Map::get_neighbors]: the array literal, in the order of the source. *)
Definition get_neighbors (location : Location) : list Location :=
  let x := fst location in
  let y := snd location in
  [ (Z.rem (x + 1) (width map), y);
    (Z.rem (x - 1 + width map) (width map), y);
    (x, Z.rem (y + 1) (height map));
    (x, Z.rem (y - 1 + height map) (height map)) ].

(** [Map::distance]. *)
Definition distance (from to : Location) : dimension_type :=
  let x_dist := Z.abs (fst from - fst to) in
  let y_dist := Z.abs (snd from - snd to) in
  Z.min x_dist (width map - x_dist) + Z.min y_dist (height map - y_dist).

(** [Map::move_location] updates its argument in place; the embedding
    returns the updated location. *)
Definition move_location (location : Location) (direction : Direction)
  : Location :=
  let x := fst location in
  let y := snd location in
  match direction with
  | North => (x, Z.rem (y + height map - 1) (height map))
  | South => (x, Z.rem (y + 1) (height map))
  | East => (Z.rem (x + 1) (width map), y)
  | West => (Z.rem (x + width map - 1) (width map), y)
  end.

(** A location of the grid: [0 <= x < W] and [0 <= y < H]. *)
Definition in_bounds (location : Location) : Prop :=
  0 <= fst location < width map /\ 0 <= snd location < height map.

Definition in_boundsb (location : Location) : bool :=
  (0 <=? fst location) && (fst location <? width map)
  && (0 <=? snd location) && (snd location <? height map).

(** The length of the map along the axis a direction moves on. *)
Definition axis (d : Direction) : dimension_type :=
  match d with
  | North | South => height map
  | East | West => width map
  end.
End Geometry.

(** The direction that undoes a move. *)
Definition opposite (d : Direction) : Direction :=
  match d with
  | North => South
  | South => North
  | East => West
  | West => East
  end.

(** [operator<<(std::ostream&, const Map&)]: the dimensions on one line, then
    the two nested range-for loops over the grid. *)
Section Serial.
Context {Cell : Type} `{Streamable Cell}.

Fixpoint write_row (os : ostream) (row : list Cell) : ostream :=
  match row with
  | [] => os
  | cell :: rest => write_row (os << cell) rest
  end.

Fixpoint write_grid (os : ostream) (rows : list (list Cell)) : ostream :=
  match rows with
  | [] => os
  | row :: rest => write_grid (write_row os row) rest
  end.

Definition write_map (os : ostream) (map : Map Cell) : ostream :=
  let os := os << width map << " "%string << height map << endl in
  write_grid os (grid map).

#[global] Instance Streamable_Map : Streamable (Map Cell) :=
  fun map => write_map EmptyString map.

(** A dense run of cells: their encodings one after another. *)
Fixpoint dense_run (cells : list Cell) : string :=
  match cells with
  | [] => EmptyString
  | cell :: rest => (stream_out cell ++ dense_run rest)%string
  end.
End Serial.

End hlt.


(* ================================================================== *)
(** * main.cpp: the execution monad *)
(* ================================================================== *)

(** Integer conversions of the assignments in [main]. *)
Definition to_unsigned_short (z : Z) : Z := z mod 2 ^ 16.
Definition to_unsigned_int (z : Z) : Z := z mod 2 ^ 32.

(** [operator<<] for [std::pair<signed int, signed int>] (lines 12-16). *)
#[global] Instance Streamable_pair : Streamable (Z * Z) :=
  fun p => EmptyString << fst p << " "%char << snd p.

(** Modelled from the spec: the class [Networking] comes with
    [core/Halite.hpp], which is not among the sources.  The spec has the
    players created from the launched bot list: the object is the list of
    the start commands launched so far. *)
Record Networking := mkNetworking { launched : list string }.

(** Modelled from the spec: [Networking::player_count] is the number of
    launched bots. *)
Definition player_count (networking : Networking) : Z :=
  Z.of_nat (List.length (launched networking)).

(** Modelled from the spec: the per-player record of [GameStatistics]
    ([core/Halite.hpp]); [main] prints its five fields as integers. *)
Record PlayerStatistics := mkPlayerStatistics {
  tag : Z;
  rank : Z;
  last_frame_alive : Z;
  total_ship_count : Z;
  damage_dealt : Z
}.

(** Modelled from the spec: [GameStatistics] is an ordered collection of
    per-player records; [main] reads it by index. *)
Record GameStatistics := mkGameStatistics {
  player_statistics : list PlayerStatistics
}.

(** Modelled from the spec: [GameConstants] holds named numeric parameters;
    their types are not known (some are floating point), so a field holds
    the text its value prints as. *)
Record GameConstants := mkGameConstants {
  PLANETS_PER_PLAYER : string;
  EXTRA_PLANETS : string;
  DRAG : string;
  MAX_SPEED : string;
  MAX_ACCELERATION : string;
  MAX_SHIP_HEALTH : string;
  BASE_SHIP_HEALTH : string;
  DOCKED_SHIP_REGENERATION : string;
  WEAPON_COOLDOWN : string;
  WEAPON_RADIUS : string;
  WEAPON_DAMAGE : string;
  DOCK_TURNS : string;
  PRODUCTION_PER_SHIP : string;
  MAX_DOCKING_DISTANCE : string
}.

(** Modelled from the spec: the class [Halite] is not among the sources; the
    object built by [new Halite(...)] is the tuple of its constructor
    arguments. *)
Record Halite := mkHalite {
  game_width : Z;
  game_height : Z;
  game_seed : Z;
  game_players : Z;
  game_networking : Networking;
  game_ignore_timeout : bool
}.

(** What [main] does that can be observed from outside, in order. *)
Inductive event :=
| Stdout (text : string)
| ReadConstants (file : string)
| LaunchBot (command : string)
| CreateGame (game : Halite)
| RunGame (names : option (list string)) (seed id : Z) (replay : bool)
          (directory : string).

(** How a computation ends: it returns a value, calls [exit], throws a C++
    exception, or has undefined behaviour. *)
Inductive result (A : Type) :=
| Ok (a : A)
| Exit (status : Z)
| Throw
| Undefined.
Arguments Ok {A} _.
Arguments Exit {A} _.
Arguments Throw {A}.
Arguments Undefined {A}.

Definition M (A : Type) : Type := (list event * result A)%type.

Definition ret {A} (a : A) : M A := ([], Ok a).

Definition bind {A B} (m : M A) (f : A -> M B) : M B :=
  match snd m with
  | Ok a => (fst m ++ fst (f a), snd (f a))
  | Exit status => (fst m, Exit status)
  | Throw => (fst m, Throw)
  | Undefined => (fst m, Undefined)
  end.

Notation "x <- m ;; k" := (bind m (fun x => k))
  (at level 61, m at next level, right associativity).
Notation "m ;; k" := (bind m (fun _ => k))
  (at level 61, right associativity).

Definition emit (e : event) : M unit := ([e], Ok tt).
Definition print (text : string) : M unit := emit (Stdout text).
Definition exit {A} (status : Z) : M A := ([], Exit status).
Definition throw {A} : M A := ([], Throw).
Definition undefined {A} : M A := ([], Undefined).

(** [try { body } catch (...) { handler }]. *)
Definition try_catch {A} (body handler : M A) : M A :=
  match snd body with
  | Throw => (fst body ++ fst handler, snd handler)
  | _ => body
  end.

(* ================================================================== *)
(** * main.cpp: the program *)
(* ================================================================== *)

(** A TCLAP value argument: the value given on the command line, if any;
    [getValue] falls back to the default the argument was declared with. *)
Definition ValueArg (A : Type) : Type := option A.

Definition getValue {A} (default : A) (arg : ValueArg A) : A :=
  match arg with
  | Some v => v
  | None => default
  end.

Definition isSet {A} (arg : ValueArg A) : bool :=
  match arg with
  | Some _ => true
  | None => false
  end.

(** The parsed command line ([cmd.parse(argc, argv)]). *)
Record CommandLine := mkCommandLine {
  quietSwitch : bool;
  overrideSwitch : bool;
  timeoutSwitch : bool;
  noReplaySwitch : bool;
  nPlayersArg : ValueArg Z;
  dimensionArgs : ValueArg (Z * Z);
  seedArg : ValueArg Z;
  replayDirectoryArg : ValueArg string;
  constantsArg : ValueArg string;
  printConstantsSwitch : bool;
  otherArgs : list string
}.

(** Modelled from the spec: what [main] takes from code that is not among
    the sources, as parameters: the two clocks, the dump of the default
    constants, the reading of a constants file ([None] when it throws), the
    index drawn by [size_dist(prg)] for a seed, whether the launch of a
    command throws, [Halite::run_game], [Halite::get_name], and
    [operator<<] of [GameStatistics]. *)
Record Environment := mkEnvironment {
  high_resolution_clock_seconds : Z;
  system_clock_microseconds : Z;
  default_constants_dump : string;
  read_constants : string -> option GameConstants;
  size_dist : Z -> nat;
  launch_throws : Networking -> string -> bool;
  run_game : Halite -> option (list string) -> Z -> Z -> bool -> string ->
             GameStatistics;
  get_name : Halite -> Z -> string;
  statistics_out : GameStatistics -> string
}.

Section Main.
Variable env : Environment.

#[local] Instance Streamable_GameStatistics : Streamable GameStatistics :=
  statistics_out env.

(** Lines 124-129: the seed of the map generator. *)
Definition choose_seed (seedArg : ValueArg Z) : Z :=
  if negb (getValue 0 seedArg =? 0) then getValue 0 seedArg
  else to_unsigned_int (Z.rem (system_clock_microseconds env) 4294967295).

(** Lines 150-171. *)
Definition constants_report (constants : GameConstants) : string :=
  EmptyString
    << "Game constants: "%string << endl
    << tab << "PLANETS_PER_PLAYER: "%string << PLANETS_PER_PLAYER constants << endl
    << tab << "EXTRA_PLANETS: "%string << EXTRA_PLANETS constants << endl
    << tab << "DRAG: "%string << DRAG constants << endl
    << tab << "MAX_SPEED: "%string << MAX_SPEED constants << endl
    << tab << "MAX_ACCELERATION: "%string << MAX_ACCELERATION constants << endl
    << tab << "MAX_SHIP_HEALTH: "%string << MAX_SHIP_HEALTH constants << endl
    << tab << "BASE_SHIP_HEALTH: "%string << BASE_SHIP_HEALTH constants << endl
    << tab << "DOCKED_SHIP_REGENERATION: "%string
    << DOCKED_SHIP_REGENERATION constants << endl
    << tab << "WEAPON_COOLDOWN: "%string << WEAPON_COOLDOWN constants << endl
    << tab << "WEAPON_RADIUS: "%string << WEAPON_RADIUS constants << endl
    << tab << "WEAPON_DAMAGE: "%string << WEAPON_DAMAGE constants << endl
    << tab << "DOCK_TURNS: "%string << DOCK_TURNS constants << endl
    << tab << "PRODUCTION_PER_SHIP: "%string << PRODUCTION_PER_SHIP constants
    << endl
    << tab << "MAX_DOCKING_DISTANCE: "%string << MAX_DOCKING_DISTANCE constants
    << endl.

(** Lines 142-178.  Reading or applying the constants file may throw; the
    exception is not caught in [main]. *)
Definition update_constants (quiet_output : bool) (constantsArg : ValueArg string)
  : M unit :=
  match constantsArg with
  | Some file =>
      emit (ReadConstants file) ;;
      match read_constants env file with
      | None => throw
      | Some constants =>
          if negb quiet_output then print (constants_report constants)
          else ret tt
      end
  | None =>
      if negb quiet_output
      then print (EmptyString << "Game constants: all default"%string << endl)
      else ret tt
  end.

(** Lines 187-195. *)
Definition mapSizeChoices : list Z :=
  [100; 125; 128; 150; 175; 200; 225; 250; 256].

Definition choose_dimensions (seed mapWidth mapHeight : Z) : Z * Z :=
  if (mapWidth =? 0) && (mapHeight =? 0) then
    let random_choice := size_dist env seed in
    let mapWidth := nth random_choice mapSizeChoices 0 in
    (mapWidth, mapWidth)
  else (mapWidth, mapHeight).

(** Modelled from the spec: [Networking::launch_bot] is not among the
    sources; it starts the process of a bot and adds it to the players, or
    throws (a launch error), as the [catch] blocks of [main] expect. *)
Definition launch_bot (networking : Networking) (command : string)
  : M Networking :=
  emit (LaunchBot command) ;;
  if launch_throws env networking command then throw
  else ret (mkNetworking (launched networking ++ [command])).

(** Lines 206-211: the loop of override mode.  [front()] of an empty list is
    undefined. *)
Fixpoint launch_pairs (unlabeledArgs : list string) (networking : Networking)
  (names : list string) : M (Networking * list string) :=
  match unlabeledArgs with
  | [] => ret (networking, names)
  | command :: unlabeledArgs =>
      networking <- launch_bot networking command ;;
      match unlabeledArgs with
      | [] => undefined
      | name :: unlabeledArgs =>
          launch_pairs unlabeledArgs networking (names ++ [name])
      end
  end.

(** Lines 231-234: the loop of default mode. *)
Fixpoint launch_each (unlabeledArgs : list string) (networking : Networking)
  : M Networking :=
  match unlabeledArgs with
  | [] => ret networking
  | command :: unlabeledArgs =>
      networking <- launch_bot networking command ;;
      launch_each unlabeledArgs networking
  end.

Definition override_count_message : string :=
  EmptyString
    << "Invalid number of player parameters with override switch enabled.  Override intended for server use only."%string
    << endl.

Definition override_launch_message : string :=
  EmptyString
    << "Invalid player parameters with override switch enabled.  Override intended for server use only."%string
    << endl.

Definition no_bot_message : string :=
  EmptyString
    << "Please provide the launch command string for at least one bot."%string
    << endl
    << "Use the --help flag for usage details."%string << endl.

Definition launch_failed_message : string :=
  EmptyString
    << "One or more of your bot launch command strings failed.  Please check for correctness and try again."%string
    << endl.

(** Lines 197-242: the bots are launched; in override mode the names are
    collected too ([names] stays [NULL] otherwise). *)
Definition launch_bots (override_names : bool) (unlabeledArgs : list string)
  (networking : Networking) : M (Networking * option (list string)) :=
  let size := Z.of_nat (List.length unlabeledArgs) in
  if override_names then
    if (size <? 4) || negb (Z.rem size 2 =? 0) then
      print override_count_message ;; exit 1
    else
      try_catch
        (r <- launch_pairs unlabeledArgs networking [] ;;
         ret (fst r, Some (snd r)))
        (print override_launch_message ;; exit 1)
  else
    (if size <? 1 then print no_bot_message ;; exit 1 else ret tt) ;;
    try_catch
      (networking <- launch_each unlabeledArgs networking ;;
       ret (networking, None))
      (print launch_failed_message ;; exit 1).

Definition single_player_message : string :=
  EmptyString << endl
    << "Only single-player mode enables specified n-player maps.  When entering multiple bots, please do not try to specify n."%string
    << endl << endl.

Definition capacity_message : string :=
  EmptyString << endl
    << "A map can only accommodate between 1 and 6 players."%string
    << endl << endl.

(** Lines 244-259: the player count checks; the count the map is made for. *)
Definition check_player_count (networking : Networking)
  (n_players_for_map_creation : Z) : M Z :=
  (if (player_count networking >? 1) && negb (n_players_for_map_creation =? 1)
   then print single_player_message ;; exit 1
   else ret tt) ;;
  let n_players_for_map_creation :=
    if player_count networking >? 1
    then to_unsigned_short (player_count networking)
    else n_players_for_map_creation in
  if (n_players_for_map_creation >? 6) || (n_players_for_map_creation <? 1)
  then print capacity_message ;; exit 1
  else ret n_players_for_map_creation.

(** [std::string::back()]: the last character; the string must not be empty
    ([None]). *)
Fixpoint back (s : string) : option ascii :=
  match s with
  | EmptyString => None
  | String c EmptyString => Some c
  | String _ rest => back rest
  end.

(** Lines 271-276: [back()] of an empty [outputFilename] is undefined. *)
Definition with_separator (outputFilename : string) : M string :=
  match back outputFilename with
  | None => undefined
  | Some c =>
      if negb (Ascii.eqb c "/"%char)
      then ret (outputFilename ++ "/")%string
      else ret outputFilename
  end.

(** Lines 291-299: the line printed for one player. *)
Definition player_summary (game : Halite) (player_stats : PlayerStatistics)
  : string :=
  EmptyString
    << "Player #"%string << tag player_stats << ", "%string
    << get_name env game (tag player_stats)
    << ", came in rank #"%string << rank player_stats
    << " and was last alive on frame #"%string
    << last_frame_alive player_stats
    << ", producing "%string << total_ship_count player_stats
    << " ships"%string
    << " and dealing "%string << damage_dealt player_stats
    << " damage"%string
    << "!"%string << endl.

(** Lines 288-300: the loop over [player_id], with [remaining] iterations to
    go; an index outside the vector is undefined. *)
Fixpoint summary_loop (game : Halite) (stats : GameStatistics)
  (remaining player_id : nat) : M unit :=
  match remaining with
  | O => ret tt
  | S remaining =>
      match nth_error (player_statistics stats) player_id with
      | None => undefined
      | Some player_stats =>
          print (player_summary game player_stats) ;;
          summary_loop game stats remaining (S player_id)
      end
  end.

(** Lines 284-301: the final statistics on standard output. *)
Definition report_statistics (quiet_output : bool) (game : Halite)
  (stats : GameStatistics) : M unit :=
  if quiet_output then print (EmptyString << stats)
  else summary_loop game stats (List.length (player_statistics stats)) 0.

(** Lines 263-305: the game is created and run, its statistics reported. *)
Definition play_game (cl : CommandLine) (mapWidth mapHeight seed id : Z)
  (n_players_for_map_creation : Z) (networking : Networking)
  (names : option (list string)) : M unit :=
  let my_game :=
    mkHalite mapWidth mapHeight seed n_players_for_map_creation networking
             (timeoutSwitch cl) in
  emit (CreateGame my_game) ;;
  outputFilename <-
    with_separator (getValue "."%string (replayDirectoryArg cl)) ;;
  emit (RunGame names seed id (negb (noReplaySwitch cl)) outputFilename) ;;
  let stats :=
    run_game env my_game names seed id (negb (noReplaySwitch cl))
             outputFilename in
  report_statistics (quietSwitch cl) my_game stats ;;
  exit 0.

(** Lines 137-178: [--print-constants] prints and returns; otherwise the
    constants are updated. *)
Definition constants_step (cl : CommandLine) : M unit :=
  if printConstantsSwitch cl
  then print (EmptyString << default_constants_dump env << endl) ;; exit 0
  else update_constants (quietSwitch cl) (constantsArg cl).

(** Lines 121-242: everything up to and including the launch of the bots. *)
Definition launch_step (cl : CommandLine)
  : M (Networking * option (list string)) :=
  constants_step cl ;;
  launch_bots (overrideSwitch cl) (otherArgs cl) (mkNetworking []).

(** [main].  Returning from [main] ends the program like [exit]. *)
Definition main (cl : CommandLine) : M unit :=
  let networking := mkNetworking [] in
  let id := to_unsigned_int (high_resolution_clock_seconds env) in
  let mapWidth := to_unsigned_short (fst (getValue (0, 0) (dimensionArgs cl))) in
  let mapHeight := to_unsigned_short (snd (getValue (0, 0) (dimensionArgs cl))) in
  let seed := choose_seed (seedArg cl) in
  let n_players_for_map_creation :=
    to_unsigned_short (getValue 1 (nPlayersArg cl)) in
  let dimensions := choose_dimensions seed mapWidth mapHeight in
  launch <- launch_step cl ;;
  n_players_for_map_creation <-
    check_player_count (fst launch) n_players_for_map_creation ;;
  play_game cl (fst dimensions) (snd dimensions) seed id
            n_players_for_map_creation (fst launch) (snd launch).

End Main.

(** The events of a run that launch a bot, and those that create or run the
    game. *)
Definition launches (trace : list event) : list string :=
  flat_map (fun e => match e with LaunchBot command => [command] | _ => [] end)
           trace.

Definition is_game_event (e : event) : bool :=
  match e with
  | CreateGame _ | RunGame _ _ _ _ _ => true
  | _ => false
  end.

(** The arguments at even positions (the start commands of override mode) and
    at odd positions (the names). *)
Fixpoint commands_of (args : list string) : list string :=
  match args with
  | command :: _ :: rest => command :: commands_of rest
  | _ => []
  end.

Fixpoint names_of (args : list string) : list string :=
  match args with
  | _ :: name :: rest => name :: names_of rest
  | _ => []
  end.

(** The start commands among the trailing arguments, by mode. *)
Definition start_commands (override_names : bool) (args : list string)
  : list string :=
  if override_names then commands_of args else args.

(** The networking object after the given commands were launched. *)
Definition after (networking : Networking) (commands : list string)
  : Networking :=
  mkNetworking (launched networking ++ commands).

(** The launch of [commands] from [networking] fails at index [k], the
    commands before it having been launched. *)
Definition fails_at (env : Environment) (networking : Networking)
  (commands : list string) (k : nat) : Prop :=
  (k < List.length commands)%nat /\
  launch_throws env (after networking (firstn k commands))
                (nth k commands EmptyString) = true.

(** No launch of [commands] from [networking] fails; the launch at index [k]
    is the first that fails. *)
Definition never_fails (env : Environment) (networking : Networking)
  (commands : list string) : Prop :=
  forall j : nat,
    (j < List.length commands)%nat ->
    launch_throws env (after networking (firstn j commands))
                  (nth j commands EmptyString) = false.

Definition fails_first_at (env : Environment) (networking : Networking)
  (commands : list string) (k : nat) : Prop :=
  fails_at env networking commands k /\
  forall j : nat,
    (j < k)%nat ->
    launch_throws env (after networking (firstn j commands))
                  (nth j commands EmptyString) = false.

(** An invalid match set-up: more than one bot together with a requested
    player count other than 1, or a player count for the map outside 1..6. *)
Definition players_for_map (networking : Networking) (n : Z) : Z :=
  if player_count networking >? 1
  then to_unsigned_short (player_count networking)
  else n.

Definition InvalidMatchSetup (networking : Networking) (n : Z) : Prop :=
  (1 < player_count networking /\ n <> 1) \/
  ~ (1 <= players_for_map networking n <= 6).

(** The two forms of the final report: the encoding of the statistics, or
    one summary line per player in the order of the statistics. *)
Definition final_report (env : Environment) (quiet_output : bool)
  (game : Halite) (stats : GameStatistics) : list event :=
  if quiet_output then [Stdout (statistics_out env stats)]
  else map (fun p => Stdout (player_summary env game p))
           (player_statistics stats).

(** The values [main] computes from the command line before the launch: the
    requested player count, the map dimensions, the replay directory and the
    identifier of the game; and the game it creates for the launched bots. *)
Definition requested_players (cl : CommandLine) : Z :=
  to_unsigned_short (getValue 1 (nPlayersArg cl)).

Definition map_dimensions (env : Environment) (cl : CommandLine) : Z * Z :=
  choose_dimensions env (choose_seed env (seedArg cl))
    (to_unsigned_short (fst (getValue (0, 0) (dimensionArgs cl))))
    (to_unsigned_short (snd (getValue (0, 0) (dimensionArgs cl)))).

(** The directory with the separator at its end, for a directory that is
    not empty. *)
Definition separated (directory : string) : string :=
  match back directory with
  | Some c =>
      if Ascii.eqb c "/"%char then directory else (directory ++ "/")%string
  | None => directory
  end.

Definition replay_directory (cl : CommandLine) : string :=
  separated (getValue "."%string (replayDirectoryArg cl)).

Definition game_id (env : Environment) : Z :=
  to_unsigned_int (high_resolution_clock_seconds env).

Definition created_game (env : Environment) (cl : CommandLine)
  (networking : Networking) : Halite :=
  mkHalite (fst (map_dimensions env cl)) (snd (map_dimensions env cl))
           (choose_seed env (seedArg cl))
           (players_for_map networking (requested_players cl))
           networking (timeoutSwitch cl).

(** The command line with another seed argument. *)
Definition with_seedArg (cl : CommandLine) (seed : ValueArg Z) : CommandLine :=
  mkCommandLine (quietSwitch cl) (overrideSwitch cl) (timeoutSwitch cl)
                (noReplaySwitch cl) (nPlayersArg cl) (dimensionArgs cl) seed
                (replayDirectoryArg cl) (constantsArg cl)
                (printConstantsSwitch cl) (otherArgs cl).

(** The environment with another reading of the system clock. *)
Definition with_system_clock (env : Environment) (microseconds : Z)
  : Environment :=
  mkEnvironment (high_resolution_clock_seconds env) microseconds
                (default_constants_dump env) (read_constants env)
                (size_dist env) (launch_throws env) (run_game env)
                (get_name env) (statistics_out env).

(** ** Sample runs *)

Definition sample_statistics : GameStatistics :=
  mkGameStatistics
    [mkPlayerStatistics 0 1 120 7 950; mkPlayerStatistics 1 2 80 3 310].

(** An environment in which exactly the start commands of [failing] fail to
    launch. *)
Definition sample_environment (failing : list string) : Environment :=
  mkEnvironment 1540000000 1540000000123456 "{}"%string (fun _ => None)
                (fun _ => 2%nat)
                (fun _ command => existsb (String.eqb command) failing)
                (fun _ _ _ _ _ _ => sample_statistics)
                (fun _ t => if t =? 0 then "alpha"%string else "beta"%string)
                (fun _ => "{stats}"%string).

(** [halite -n 3 ./a ./b] *)
Definition two_bots_three_players : CommandLine :=
  mkCommandLine false false false false (Some 3) None None None None false
                ["./a"; "./b"]%string.

(** [halite -q -s 42 ./a ./b] and [halite -s 42 ./a ./b] *)
Definition two_bots (quiet : bool) : CommandLine :=
  mkCommandLine quiet false false false None None (Some 42) None None false
                ["./a"; "./b"]%string.

(** [halite -q -o ./a A ./b B ./c C] *)
Definition three_pairs : CommandLine :=
  mkCommandLine true true false false None None None None None false
                ["./a"; "A"; "./b"; "B"; "./c"; "C"]%string.

(** [halite -q -s 0 ./a ./b], run at a clock reading that is a multiple of
    4294967295 microseconds. *)
Definition two_bots_seed_zero : CommandLine :=
  with_seedArg (two_bots true) (Some 0).

Definition environment_at_multiple : Environment :=
  with_system_clock (sample_environment []) (4294967295 * 358565).


(** ** Notions used by the further properties *)

(** A location moved [k] times in the same direction. *)
Definition move_repeatedly {Cell : Type} (m : hlt.Map Cell)
  (d : hlt.Direction) (k : nat) (L : hlt.Location) : hlt.Location :=
  Nat.iter k (fun l => hlt.move_location m l d) L.

(** The location half the map away along both axes. *)
Definition antipode {Cell : Type} (m : hlt.Map Cell) (L : hlt.Location)
  : hlt.Location :=
  (Z.rem (fst L + hlt.width m / 2) (hlt.width m),
   Z.rem (snd L + hlt.height m / 2) (hlt.height m)).

(** Whether a character occurs in a text. *)
Fixpoint occurs (c : ascii) (s : string) : bool :=
  match s with
  | EmptyString => false
  | String a rest => Ascii.eqb c a || occurs c rest
  end.

(** Reading a printed pair back: the text before and after the first
    occurrence of a character, and a decimal text as an integer. *)
Fixpoint before (c : ascii) (s : string) : string :=
  match s with
  | EmptyString => EmptyString
  | String a rest => if Ascii.eqb c a then EmptyString
                     else String a (before c rest)
  end.

Fixpoint behind (c : ascii) (s : string) : string :=
  match s with
  | EmptyString => EmptyString
  | String a rest => if Ascii.eqb c a then rest else behind c rest
  end.

Definition read_Z (s : string) : option Z :=
  option_map Z.of_int (NilZero.int_of_string s).

Definition read_pair (s : string) : option (Z * Z) :=
  match read_Z (before " " s), read_Z (behind " " s) with
  | Some a, Some b => Some (a, b)
  | _, _ => None
  end.

(** The texts a run writes on standard output, in order. *)
Definition stdout_of (trace : list event) : list string :=
  flat_map (fun e => match e with Stdout text => [text] | _ => [] end) trace.

(* ================================================================== *)
(** * Properties of the map geometry *)
(* ================================================================== *)

Import hlt.

(** ** Remainders of the wrap-around steps *)

Lemma rem_succ_wrap (x W : Z) :
  0 <= x < W -> Z.rem (x + 1) W = if x + 1 =? W then 0 else x + 1.
Proof.
  intros Hx. destruct (Z.eqb_spec (x + 1) W) as [E | E].
  - rewrite E. apply Z.rem_same. lia.
  - apply Z.rem_small. lia.
Qed.

Lemma rem_pred_wrap (x W : Z) :
  0 <= x < W -> Z.rem (x - 1 + W) W = if x =? 0 then W - 1 else x - 1.
Proof.
  intros Hx. destruct (Z.eqb_spec x 0) as [E | E].
  - subst x. rewrite Z.rem_small; lia.
  - rewrite Z.rem_mod_nonneg by lia.
    replace (x - 1 + W) with (x - 1 + 1 * W) by ring.
    rewrite Z.mod_add by lia. apply Z.mod_small. lia.
Qed.

Lemma rem_pred_wrap' (x W : Z) :
  0 <= x < W -> Z.rem (x + W - 1) W = if x =? 0 then W - 1 else x - 1.
Proof.
  intros Hx. replace (x + W - 1) with (x - 1 + W) by ring.
  now apply rem_pred_wrap.
Qed.

(** The operands of [%] and of [abs] on in-bounds coordinates: no value
    computed by [Map.cpp] leaves the interval from [- W] to [2 * W]. *)
Lemma wrap_operands_bounded (x x' W : Z) :
  0 <= x < W -> 0 <= x' < W ->
  0 <= x + 1 <= W /\ 0 <= x - 1 + W < 2 * W /\ 0 <= x + W - 1 < 2 * W /\
  - W < x - x' < W /\ 0 < W - Z.abs (x - x') <= W.
Proof. lia. Qed.

(** The same steps as residues modulo the dimension. *)
Lemma rem_succ_mod (x W : Z) : 0 <= x < W -> Z.rem (x + 1) W = (x + 1) mod W.
Proof. intros Hx. apply Z.rem_mod_nonneg; lia. Qed.

Lemma rem_pred_mod (x W : Z) :
  0 <= x < W -> Z.rem (x + W - 1) W = (x - 1) mod W.
Proof.
  intros Hx. rewrite Z.rem_mod_nonneg by lia.
  replace (x + W - 1) with (x - 1 + 1 * W) by ring.
  apply Z.mod_add. lia.
Qed.

(** Unfolds the geometry and rewrites every wrap-around step of a goal over
    in-bounds coordinates, then splits on the comparisons. *)
Ltac wrap_steps :=
  unfold get_neighbors, move_location, distance in *;
  cbn [fst snd map] in *;
  repeat first
    [ rewrite rem_succ_wrap by lia
    | rewrite rem_pred_wrap by lia
    | rewrite rem_pred_wrap' by lia ];
  repeat match goal with
         | |- context [?a =? ?b] => destruct (Z.eqb_spec a b)
         end.

Section MapGeometry.
Context {Cell : Type}.
Variable m : Map Cell.

Lemma in_boundsb_spec (L : Location) : in_boundsb m L = true <-> in_bounds m L.
Proof.
  unfold in_boundsb, in_bounds.
  rewrite !andb_true_iff, !Z.leb_le, !Z.ltb_lt. tauto.
Qed.

(** The neighbors are the four moves, in the order East, West, South,
    North. *)
Lemma get_neighbors_moves (L : Location) :
  get_neighbors m L = map (move_location m L) [East; West; South; North].
Proof.
  unfold get_neighbors, move_location; cbn [map].
  replace (fst L - 1 + width m) with (fst L + width m - 1) by ring.
  replace (snd L - 1 + height m) with (snd L + height m - 1) by ring.
  reflexivity.
Qed.

Lemma move_location_distance (L : Location) (d : Direction) :
  in_bounds m L ->
  distance m L (move_location m L d) = if axis m d =? 1 then 0 else 1.
Proof.
  intros [Hx Hy]. destruct L as [x y]; cbn [fst snd] in *.
  destruct d; cbn [axis]; wrap_steps; lia.
Qed.

End MapGeometry.

(** ** The neighbors of a cell *)

(** What [get_neighbors] computes on every map of positive width and height:
    [NEIGHBOR_COUNT] = 4 locations, exactly those reached by [move_location]
    in the four directions; the neighbor in a direction is at distance 1 when
    the map is at least 2 cells long along that direction's axis, and it is
    the location itself, against the docstring of the function, when the map
    is 1 cell long along it. *)
Theorem get_neighbors_spec {Cell : Type} (m : Map Cell) (L : Location) :
  0 < width m -> 0 < height m -> in_bounds m L ->
  List.length (get_neighbors m L) = NEIGHBOR_COUNT /\
  (forall n : Location,
      In n (get_neighbors m L) <->
      In n (map (move_location m L) [North; South; East; West])) /\
  (forall d : Direction,
      distance m L (move_location m L d) = if axis m d =? 1 then 0 else 1).
Proof.
  intros HW HH HL. split; [reflexivity | split].
  - intros n. rewrite get_neighbors_moves. cbn [map In]. tauto.
  - intros d. now apply move_location_distance.
Qed.

Lemma get_neighbors_spec_witness :
  let m := mkMap 4 3 [[tt; tt; tt; tt]; [tt; tt; tt; tt]; [tt; tt; tt; tt]] in
  List.length (get_neighbors m (3, 0)) = NEIGHBOR_COUNT /\
  (forall n : Location,
      In n (get_neighbors m (3, 0)) <->
      In n (map (move_location m (3, 0)) [North; South; East; West])) /\
  (forall d : Direction,
      distance m (3, 0) (move_location m (3, 0) d)
      = if axis m d =? 1 then 0 else 1).
Proof.
  intros m. apply (get_neighbors_spec m (3, 0)).
  - reflexivity.
  - reflexivity.
  - unfold in_bounds; simpl; lia.
Defined.

(** C1 (a defect of the code).  The docstring of [get_neighbors] and the
    claim have every neighbor at Manhattan distance 1.  On the 1 x 3 map the
    neighbors of the in-bounds location (0,1) are (0,1), (0,1), (0,2) and
    (0,0): the East and West neighbors are the location itself, at distance
    0, so not every neighbor is at distance 1. *)
Lemma get_neighbors_width_one :
  let m := mkMap 1 3 [[tt]; [tt]; [tt]] in
  0 < width m /\ 0 < height m /\ in_bounds m (0, 1) /\
  get_neighbors m (0, 1) = [(0, 1); (0, 1); (0, 2); (0, 0)] /\
  distance m (0, 1) (0, 1) = 0 /\
  ~ (List.length (get_neighbors m (0, 1)) = 4%nat /\
     (forall n : Location,
         In n (get_neighbors m (0, 1)) -> distance m (0, 1) n = 1) /\
     (forall n : Location,
         In n (get_neighbors m (0, 1)) <->
         In n (map (move_location m (0, 1)) [North; South; East; West]))).
Proof.
  intros m. repeat split; try reflexivity; try (simpl; lia).
  intros (_ & Hdist & _).
  specialize (Hdist (0, 1) (or_introl eq_refl)). discriminate Hdist.
Qed.

(** [main] hands the requested dimensions 1 and 3 to the game as they
    are. *)
Example narrow_map_accepted :
  map_dimensions (sample_environment [])
                 (mkCommandLine true false false false None (Some (1, 3))
                                (Some 42) None None false ["./a"]%string)
  = (1, 3).
Proof. reflexivity. Qed.

(** ** Distance *)

(** C2.  On a map of positive width [W] and height [H], the distance
    between in-bounds locations (x1,y1) and (x2,y2) is
    min(|x1-x2|, W-|x1-x2|) + min(|y1-y2|, H-|y1-y2|). *)
Theorem distance_formula {Cell : Type} (m : Map Cell) (x1 y1 x2 y2 : Z) :
  0 < width m -> 0 < height m ->
  in_bounds m (x1, y1) -> in_bounds m (x2, y2) ->
  distance m (x1, y1) (x2, y2)
  = Z.min (Z.abs (x1 - x2)) (width m - Z.abs (x1 - x2))
    + Z.min (Z.abs (y1 - y2)) (height m - Z.abs (y1 - y2)).
Proof. intros _ _ _ _. reflexivity. Qed.

Lemma distance_formula_witness :
  let m := mkMap 10 8 (repeat (repeat tt 10) 8) in
  distance m (1, 7) (9, 2)
  = Z.min (Z.abs (1 - 9)) (10 - Z.abs (1 - 9))
    + Z.min (Z.abs (7 - 2)) (8 - Z.abs (7 - 2)).
Proof.
  intros m. apply (distance_formula m 1 7 9 2).
  - reflexivity.
  - reflexivity.
  - unfold in_bounds; simpl; lia.
  - unfold in_bounds; simpl; lia.
Defined.

(** On the 10 x 8 map the way from (1,7) to (9,2) wraps around both edges. *)
Example distance_wraps :
  distance (mkMap 10 8 (repeat (repeat tt 10) 8)) (1, 7) (9, 2) = 5.
Proof. reflexivity. Qed.

(** Each summand of the distance is at most half the dimension. *)
Lemma min_wrap_half (d W : Z) : Z.min d (W - d) <= W / 2.
Proof.
  pose proof (Z.div_mod W 2 ltac:(lia)) as E.
  pose proof (Z.mod_pos_bound W 2 ltac:(lia)) as B.
  lia.
Qed.

(** C3.  On a map of positive width and height, for in-bounds [A] and [B]:
    the distance is symmetric, the distance from [A] to itself is 0, and the
    distance is at most floor(W/2) + floor(H/2). *)
Theorem distance_sym_refl_bound {Cell : Type} (m : Map Cell) (A B : Location) :
  0 < width m -> 0 < height m -> in_bounds m A -> in_bounds m B ->
  distance m A B = distance m B A /\
  distance m A A = 0 /\
  distance m A B <= width m / 2 + height m / 2.
Proof.
  intros HW HH _ _. unfold distance. repeat split.
  - replace (fst B - fst A) with (- (fst A - fst B)) by ring.
    replace (snd B - snd A) with (- (snd A - snd B)) by ring.
    now rewrite !Z.abs_opp.
  - rewrite !Z.sub_diag. cbn [Z.abs]. lia.
  - apply Z.add_le_mono; apply min_wrap_half.
Qed.

Lemma distance_sym_refl_bound_witness :
  let m := mkMap 10 8 (repeat (repeat tt 10) 8) in
  distance m (0, 0) (5, 4) = distance m (5, 4) (0, 0) /\
  distance m (0, 0) (0, 0) = 0 /\
  distance m (0, 0) (5, 4) <= 10 / 2 + 8 / 2.
Proof.
  intros m. apply (distance_sym_refl_bound m (0, 0) (5, 4)).
  - reflexivity.
  - reflexivity.
  - unfold in_bounds; simpl; lia.
  - unfold in_bounds; simpl; lia.
Defined.

(** ** Moving a location *)

(** C4.  On a map of positive width and height, moving an in-bounds location
    in any direction gives an in-bounds location: North and South leave [x]
    and set [y] to [y - 1] and [y + 1] modulo the height; East and West leave
    [y] and set [x] to [x + 1] and [x - 1] modulo the width. *)
Theorem move_location_step {Cell : Type} (m : Map Cell) (L : Location)
  (d : Direction) :
  0 < width m -> 0 < height m -> in_bounds m L ->
  in_bounds m (move_location m L d) /\
  match d with
  | North => fst (move_location m L d) = fst L /\
             snd (move_location m L d) = (snd L - 1) mod height m
  | South => fst (move_location m L d) = fst L /\
             snd (move_location m L d) = (snd L + 1) mod height m
  | East => fst (move_location m L d) = (fst L + 1) mod width m /\
            snd (move_location m L d) = snd L
  | West => fst (move_location m L d) = (fst L - 1) mod width m /\
            snd (move_location m L d) = snd L
  end.
Proof.
  intros HW HH [Hx Hy].
  pose proof (fun a => Z.mod_pos_bound a (width m) HW) as BW.
  pose proof (fun a => Z.mod_pos_bound a (height m) HH) as BH.
  destruct d; unfold in_bounds, move_location; cbn [fst snd];
    rewrite ?rem_pred_mod, ?rem_succ_mod by assumption; auto.
Qed.

Lemma move_location_step_witness :
  let m := mkMap 4 3 [[tt; tt; tt; tt]; [tt; tt; tt; tt]; [tt; tt; tt; tt]] in
  in_bounds m (move_location m (0, 2) West) /\
  fst (move_location m (0, 2) West) = (0 - 1) mod 4 /\
  snd (move_location m (0, 2) West) = 2.
Proof.
  intros m. apply (move_location_step m (0, 2) West).
  - reflexivity.
  - reflexivity.
  - unfold in_bounds; simpl; lia.
Defined.

Lemma wrap_pred_succ (x W : Z) :
  0 <= x < W -> Z.rem (Z.rem (x + 1) W + W - 1) W = x.
Proof.
  intros Hx. rewrite (rem_succ_wrap x) by lia.
  destruct (Z.eqb_spec (x + 1) W) as [E | E]; rewrite rem_pred_wrap' by lia.
  - cbn. lia.
  - destruct (Z.eqb_spec (x + 1) 0); lia.
Qed.

Lemma wrap_succ_pred (x W : Z) :
  0 <= x < W -> Z.rem (Z.rem (x + W - 1) W + 1) W = x.
Proof.
  intros Hx. rewrite (rem_pred_wrap' x) by lia.
  destruct (Z.eqb_spec x 0) as [E | E]; rewrite rem_succ_wrap by lia.
  - destruct (Z.eqb_spec (W - 1 + 1) W); lia.
  - destruct (Z.eqb_spec (x - 1 + 1) W); lia.
Qed.

(** C9.  On a map of positive width and height, moving an in-bounds location
    in a direction and then in the opposite direction (North then South,
    South then North, East then West, West then East) gives the location
    back. *)
Theorem move_location_opposite {Cell : Type} (m : Map Cell) (L : Location)
  (d : Direction) :
  0 < width m -> 0 < height m -> in_bounds m L ->
  move_location m (move_location m L d) (opposite d) = L.
Proof.
  intros HW HH [Hx Hy]. destruct L as [x y]; cbn [fst snd] in *.
  destruct d; unfold move_location, opposite; cbn [fst snd]; f_equal;
    auto using wrap_succ_pred, wrap_pred_succ.
Qed.

Lemma move_location_opposite_witness :
  let m := mkMap 4 3 [[tt; tt; tt; tt]; [tt; tt; tt; tt]; [tt; tt; tt; tt]] in
  move_location m (move_location m (3, 0) North) (opposite North) = (3, 0).
Proof.
  intros m. apply (move_location_opposite m (3, 0) North).
  - reflexivity.
  - reflexivity.
  - unfold in_bounds; simpl; lia.
Defined.

(** ** The bot serial format *)

Lemma append_assoc (a b c : string) : ((a ++ b) ++ c = a ++ (b ++ c))%string.
Proof. induction a as [| ch a IH]; cbn; [reflexivity | now rewrite IH]. Qed.

Lemma append_empty_r (a : string) : (a ++ EmptyString = a)%string.
Proof. induction a as [| ch a IH]; cbn; [reflexivity | now rewrite IH]. Qed.

Section SerialFormat.
Context {Cell : Type} `{Streamable Cell}.

Lemma write_row_dense (row : list Cell) (os : ostream) :
  write_row os row = (os ++ dense_run row)%string.
Proof.
  revert os. induction row as [| cell rest IH]; intros os; cbn.
  - now rewrite append_empty_r.
  - rewrite IH. unfold shl. apply append_assoc.
Qed.

Lemma dense_run_app (xs ys : list Cell) :
  dense_run (xs ++ ys) = (dense_run xs ++ dense_run ys)%string.
Proof.
  induction xs as [| x xs IH]; cbn; [reflexivity |].
  now rewrite IH, append_assoc.
Qed.

Lemma write_grid_dense (rows : list (list Cell)) (os : ostream) :
  write_grid os rows = (os ++ dense_run (List.concat rows))%string.
Proof.
  revert os. induction rows as [| row rest IH]; intros os;
    cbn [write_grid List.concat].
  - apply eq_sym, append_empty_r.
  - now rewrite IH, write_row_dense, dense_run_app, append_assoc.
Qed.

End SerialFormat.

(** C5.  Writing a map appends to the stream the width, a space, the height
    and a line end, followed by the encodings of all cells, row after row and
    within a row cell after cell, with nothing between them; the text
    appended depends on the map only, not on the stream written to. *)
Theorem write_map_format {Cell : Type} `{Streamable Cell} (os : ostream)
  (m : Map Cell) :
  write_map os m
  = (os ++ (stream_out (width m) ++ " " ++ stream_out (height m) ++ endl
            ++ dense_run (List.concat (grid m))))%string
  /\ write_map os m = (os ++ write_map EmptyString m)%string.
Proof.
  assert (E : forall os',
             write_map os' m
             = (os' ++ (stream_out (width m) ++ " " ++ stream_out (height m)
                        ++ endl ++ dense_run (List.concat (grid m))))%string).
  { intros os'. unfold write_map, shl. rewrite write_grid_dense.
    now rewrite !append_assoc. }
  split; [apply E |].
  now rewrite (E EmptyString), E.
Qed.

(* ================================================================== *)
(** * Properties of [main] *)
(* ================================================================== *)

(** ** The execution monad *)

Lemma bind_ok {A B} (t : list event) (a : A) (f : A -> M B) :
  bind (t, Ok a) f = (t ++ fst (f a), snd (f a)).
Proof. reflexivity. Qed.

Lemma bind_exit {A B} (t : list event) (status : Z) (f : A -> M B) :
  bind (t, Exit status) f = (t, Exit status).
Proof. reflexivity. Qed.

Lemma bind_throw {A B} (t : list event) (f : A -> M B) :
  bind (t, Throw) f = (t, Throw).
Proof. reflexivity. Qed.

Lemma bind_ret {A B} (a : A) (f : A -> M B) : bind (ret a) f = f a.
Proof. unfold bind, ret; cbn [fst snd app]. now destruct (f a). Qed.

Lemma bind_assoc {A B C} (m : M A) (f : A -> M B) (g : B -> M C) :
  bind (bind m f) g = bind m (fun a => bind (f a) g).
Proof.
  destruct m as [t [a | status | |]]; try reflexivity.
  unfold bind at 2 3; cbn [fst snd].
  destruct (f a) as [t' [b | status | |]]; unfold bind; cbn [fst snd];
    now rewrite ?app_assoc.
Qed.

Lemma launches_app (t1 t2 : list event) :
  launches (t1 ++ t2) = launches t1 ++ launches t2.
Proof. apply flat_map_app. Qed.

Lemma launches_LaunchBot (commands : list string) :
  launches (map LaunchBot commands) = commands.
Proof.
  induction commands as [| c commands IH]; cbn; [reflexivity | now f_equal].
Qed.

Lemma no_game_event_LaunchBot (commands : list string) :
  filter is_game_event (map LaunchBot commands) = [].
Proof. induction commands as [| c commands IH]; cbn; auto. Qed.

(** ** Launching the bots *)

Section Launch.
Variable env : Environment.

Lemma launch_bot_run (networking : Networking) (command : string) :
  launch_bot env networking command
  = ([LaunchBot command],
     if launch_throws env networking command then Throw
     else Ok (after networking [command])).
Proof.
  unfold launch_bot, emit, bind; cbn [fst snd].
  now destruct (launch_throws env networking command).
Qed.

Lemma after_nil (networking : Networking) : after networking [] = networking.
Proof. destruct networking; unfold after; cbn. now rewrite app_nil_r. Qed.

Lemma after_cons (networking : Networking) (c : string) (cs : list string) :
  after (after networking [c]) cs = after networking (c :: cs).
Proof. unfold after; cbn [launched]. now rewrite <- app_assoc. Qed.

Lemma fails_at_first (networking : Networking) (c : string)
  (cs : list string) :
  launch_throws env networking c = true -> fails_at env networking (c :: cs) 0.
Proof.
  intros E. split; cbn [List.length firstn nth]; [lia |].
  now rewrite after_nil.
Qed.

Lemma fails_at_later (networking : Networking) (c : string)
  (cs : list string) (k : nat) :
  fails_at env (after networking [c]) cs k -> fails_at env networking (c :: cs) (S k).
Proof.
  intros [Hk E]. split; cbn [List.length firstn nth]; [lia |].
  now rewrite <- after_cons.
Qed.

(** The loop of default mode launches the commands in order until one
    fails. *)
Lemma launch_each_run (commands : list string) :
  forall networking : Networking,
    launch_each env commands networking
    = (map LaunchBot commands, Ok (after networking commands))
    \/ exists k : nat,
      fails_at env networking commands k /\
      launch_each env commands networking
      = (map LaunchBot (firstn (S k) commands), Throw).
Proof.
  induction commands as [| c cs IH]; intros networking.
  - left. cbn. now rewrite after_nil.
  - cbn [launch_each]. rewrite launch_bot_run.
    destruct (launch_throws env networking c) eqn:E.
    + right. exists 0%nat. split; [now apply fails_at_first | reflexivity].
    + destruct (IH (after networking [c])) as [R | (k & Hk & R)];
        rewrite bind_ok, R; cbn [fst snd app map].
      * left. now rewrite after_cons.
      * right. exists (S k). split; [now apply fails_at_later | reflexivity].
Qed.

(** The loop of override mode, on an even number of arguments: the commands
    are launched in order until one fails, and the names are recorded. *)
Lemma launch_pairs_run (n : nat) :
  forall (args : list string) (networking : Networking) (names : list string),
    List.length args = (2 * n)%nat ->
    launch_pairs env args networking names
    = (map LaunchBot (commands_of args),
       Ok (after networking (commands_of args), names ++ names_of args))
    \/ exists k : nat,
      fails_at env networking (commands_of args) k /\
      launch_pairs env args networking names
      = (map LaunchBot (firstn (S k) (commands_of args)), Throw).
Proof.
  induction n as [| n IH]; intros args networking names Hlen.
  - destruct args; [| discriminate Hlen].
    left. cbn. now rewrite after_nil, app_nil_r.
  - destruct args as [| c [| name rest]]; cbn [List.length] in Hlen; try lia.
    assert (Hrest : List.length rest = (2 * n)%nat) by lia.
    cbn [launch_pairs commands_of names_of]. rewrite launch_bot_run.
    destruct (launch_throws env networking c) eqn:E.
    + right. exists 0%nat. split; [now apply fails_at_first | reflexivity].
    + destruct (IH rest (after networking [c]) (names ++ [name]) Hrest)
        as [R | (k & Hk & R)]; rewrite bind_ok, R; cbn [fst snd app map].
      * left. now rewrite after_cons, <- app_assoc.
      * right. exists (S k). split; [now apply fails_at_later | reflexivity].
Qed.

End Launch.

(** ** The first launch that fails *)

Section FirstFailure.
Variable env : Environment.

Lemma never_fails_cons (networking : Networking) (c : string)
  (cs : list string) :
  launch_throws env networking c = false ->
  never_fails env (after networking [c]) cs ->
  never_fails env networking (c :: cs).
Proof.
  intros E Hcs j Hj. destruct j as [| j]; cbn [firstn nth].
  - now rewrite after_nil.
  - rewrite <- after_cons. apply Hcs. cbn [List.length] in Hj. lia.
Qed.

Lemma fails_first_at_first (networking : Networking) (c : string)
  (cs : list string) :
  launch_throws env networking c = true ->
  fails_first_at env networking (c :: cs) 0.
Proof.
  intros E. split; [now apply fails_at_first | intros j Hj; lia].
Qed.

Lemma fails_first_at_later (networking : Networking) (c : string)
  (cs : list string) (k : nat) :
  launch_throws env networking c = false ->
  fails_first_at env (after networking [c]) cs k ->
  fails_first_at env networking (c :: cs) (S k).
Proof.
  intros E [Hk Hbefore]. split; [now apply fails_at_later |].
  intros j Hj. destruct j as [| j]; cbn [firstn nth].
  - now rewrite after_nil.
  - rewrite <- after_cons. apply Hbefore. lia.
Qed.

Lemma never_fails_excludes (networking : Networking)
  (commands : list string) (k : nat) :
  never_fails env networking commands ->
  fails_at env networking commands k -> False.
Proof.
  intros Hnever [Hk E]. rewrite (Hnever k Hk) in E. discriminate E.
Qed.

Lemma fails_first_at_unique (networking : Networking)
  (commands : list string) (k k' : nat) :
  fails_first_at env networking commands k ->
  fails_first_at env networking commands k' -> k = k'.
Proof.
  intros [[_ E] Hbefore] [[_ E'] Hbefore'].
  destruct (Nat.lt_trichotomy k k') as [Hlt | [Heq | Hgt]]; [| exact Heq |].
  - rewrite (Hbefore' k Hlt) in E. discriminate E.
  - rewrite (Hbefore k' Hgt) in E'. discriminate E'.
Qed.

(** The loop of default mode: every command is launched when no launch
    fails, and the loop stops with the exception of the first launch that
    fails. *)
Lemma launch_each_first (commands : list string) :
  forall networking : Networking,
    (never_fails env networking commands /\
     launch_each env commands networking
     = (map LaunchBot commands, Ok (after networking commands)))
    \/ exists k : nat,
      fails_first_at env networking commands k /\
      launch_each env commands networking
      = (map LaunchBot (firstn (S k) commands), Throw).
Proof.
  induction commands as [| c cs IH]; intros networking.
  - left. split; [intros j Hj; cbn in Hj; lia |].
    cbn. now rewrite after_nil.
  - cbn [launch_each]. rewrite launch_bot_run.
    destruct (launch_throws env networking c) eqn:E.
    + right. exists 0%nat.
      split; [now apply fails_first_at_first | reflexivity].
    + destruct (IH (after networking [c])) as [[Hn R] | (k & Hk & R)];
        rewrite bind_ok, R; cbn [fst snd app map].
      * left. split; [now apply never_fails_cons |]. now rewrite after_cons.
      * right. exists (S k).
        split; [now apply fails_first_at_later | reflexivity].
Qed.

(** The loop of override mode, on an even number of arguments. *)
Lemma launch_pairs_first (n : nat) :
  forall (args : list string) (networking : Networking) (names : list string),
    List.length args = (2 * n)%nat ->
    (never_fails env networking (commands_of args) /\
     launch_pairs env args networking names
     = (map LaunchBot (commands_of args),
        Ok (after networking (commands_of args), names ++ names_of args)))
    \/ exists k : nat,
      fails_first_at env networking (commands_of args) k /\
      launch_pairs env args networking names
      = (map LaunchBot (firstn (S k) (commands_of args)), Throw).
Proof.
  induction n as [| n IH]; intros args networking names Hlen.
  - destruct args; [| discriminate Hlen].
    left. split; [intros j Hj; cbn in Hj; lia |].
    cbn. now rewrite after_nil, app_nil_r.
  - destruct args as [| c [| name rest]]; cbn [List.length] in Hlen; try lia.
    assert (Hrest : List.length rest = (2 * n)%nat) by lia.
    cbn [launch_pairs commands_of names_of]. rewrite launch_bot_run.
    destruct (launch_throws env networking c) eqn:E.
    + right. exists 0%nat.
      split; [now apply fails_first_at_first | reflexivity].
    + destruct (IH rest (after networking [c]) (names ++ [name]) Hrest)
        as [[Hn R] | (k & Hk & R)]; rewrite bind_ok, R; cbn [fst snd app map].
      * left. split; [now apply never_fails_cons |].
        now rewrite after_cons, <- app_assoc.
      * right. exists (S k).
        split; [now apply fails_first_at_later | reflexivity].
Qed.

End FirstFailure.

(** ** The launch step and the player count checks *)

Lemma size_even_rem (n : nat) : Z.rem (Z.of_nat (2 * n)) 2 = 0.
Proof.
  rewrite Nat2Z.inj_mul, Z.mul_comm. apply Z.rem_mul. discriminate.
Qed.

Lemma size_odd_rem (n : nat) : Z.rem (Z.of_nat (2 * n + 1)) 2 = 1.
Proof.
  rewrite Z.rem_mod_nonneg by lia.
  replace (Z.of_nat (2 * n + 1)) with (1 + Z.of_nat n * 2) by lia.
  now rewrite Z.mod_add by discriminate.
Qed.

Section LaunchStep.
Variable env : Environment.

Lemma launch_bots_override_count (args : list string)
  (networking : Networking) :
  (List.length args < 4)%nat \/ Nat.Odd (List.length args) ->
  launch_bots env true args networking
  = ([Stdout override_count_message], Exit 1).
Proof.
  intros Hbad. unfold launch_bots.
  assert (E : (Z.of_nat (List.length args) <? 4)
              || negb (Z.rem (Z.of_nat (List.length args)) 2 =? 0) = true).
  { apply orb_true_iff. destruct Hbad as [Hlt | [k Hk]].
    - left. apply Z.ltb_lt. lia.
    - right. now rewrite Hk, size_odd_rem. }
  now rewrite E.
Qed.

Lemma launch_bots_override_pairs (args : list string)
  (networking : Networking) :
  (4 <= List.length args)%nat -> Nat.Even (List.length args) ->
  launch_bots env true args networking
  = (map LaunchBot (commands_of args),
     Ok (after networking (commands_of args), Some (names_of args)))
  \/ exists k : nat,
    fails_at env networking (commands_of args) k /\
    launch_bots env true args networking
    = (map LaunchBot (firstn (S k) (commands_of args))
         ++ [Stdout override_launch_message],
       Exit 1).
Proof.
  intros Hge [n Hn]. unfold launch_bots.
  assert (E : (Z.of_nat (List.length args) <? 4)
              || negb (Z.rem (Z.of_nat (List.length args)) 2 =? 0) = false).
  { apply orb_false_iff. split.
    - apply Z.ltb_ge. lia.
    - now rewrite Hn, size_even_rem. }
  rewrite E.
  destruct (launch_pairs_run env n args networking [] Hn)
    as [R | (k & Hk & R)]; rewrite R.
  - left. unfold try_catch, bind, ret; cbn [fst snd app].
    now rewrite app_nil_r.
  - right. exists k. split; [exact Hk | reflexivity].
Qed.

Lemma launch_bots_default (args : list string) (networking : Networking) :
  args <> [] ->
  launch_bots env false args networking
  = (map LaunchBot args, Ok (after networking args, None))
  \/ exists k : nat,
    fails_at env networking args k /\
    launch_bots env false args networking
    = (map LaunchBot (firstn (S k) args) ++ [Stdout launch_failed_message],
       Exit 1).
Proof.
  intros Hne. unfold launch_bots.
  assert (E : (Z.of_nat (List.length args) <? 1) = false).
  { apply Z.ltb_ge. destruct args; [congruence | cbn [List.length]; lia]. }
  rewrite E.
  destruct (launch_each_run env args networking) as [R | (k & Hk & R)];
    rewrite R.
  - left. unfold try_catch, bind, ret; cbn [fst snd app].
    now rewrite app_nil_r.
  - right. exists k. split; [exact Hk | reflexivity].
Qed.

(** When the bots are launched without an exit, every start command has been
    launched, in order, and there is at least one. *)
Lemma launch_bots_ok (override_names : bool) (args : list string)
  (networking networking' : Networking) (names : option (list string))
  (t : list event) :
  launch_bots env override_names args networking
  = (t, Ok (networking', names)) ->
  t = map LaunchBot (start_commands override_names args) /\
  networking' = after networking (start_commands override_names args) /\
  start_commands override_names args <> [] /\
  names = if override_names then Some (names_of args) else None.
Proof.
  intros R. destruct override_names; cbn [start_commands].
  - destruct (Nat.Even_or_Odd (List.length args)) as [Hev | Hodd].
    + destruct (Nat.lt_ge_cases (List.length args) 4) as [Hlt | Hge].
      * rewrite launch_bots_override_count in R by auto. discriminate R.
      * destruct (launch_bots_override_pairs args networking Hge Hev)
          as [R' | (k & _ & R')]; rewrite R' in R; [| discriminate R].
        injection R as <- <- <-. repeat split.
        destruct args as [| c [| name rest]]; cbn [List.length] in Hge;
          try lia; discriminate.
    + rewrite launch_bots_override_count in R by auto. discriminate R.
  - destruct args as [| c rest]; [discriminate R |].
    destruct (launch_bots_default (c :: rest) networking ltac:(discriminate))
      as [R' | (k & _ & R')]; rewrite R' in R; [| discriminate R].
    injection R as <- <- <-. repeat split. discriminate.
Qed.

(** The constants step launches nothing and creates no game. *)
Lemma constants_step_quiet (cl : CommandLine) :
  launches (fst (constants_step env cl)) = [] /\
  filter is_game_event (fst (constants_step env cl)) = [].
Proof.
  unfold constants_step, update_constants.
  destruct (printConstantsSwitch cl); [split; reflexivity |].
  destruct (constantsArg cl) as [file |]; [destruct (read_constants env file) |];
    destruct (quietSwitch cl); split; reflexivity.
Qed.

(** The outcome of the launch step, when it ends without an exit. *)
Lemma launch_step_ok (cl : CommandLine) (networking : Networking)
  (names : option (list string)) (t : list event) :
  launch_step env cl = (t, Ok (networking, names)) ->
  launches t = start_commands (overrideSwitch cl) (otherArgs cl) /\
  launched networking = start_commands (overrideSwitch cl) (otherArgs cl) /\
  start_commands (overrideSwitch cl) (otherArgs cl) <> [] /\
  filter is_game_event t = [] /\
  names = (if overrideSwitch cl then Some (names_of (otherArgs cl)) else None).
Proof.
  unfold launch_step. intros R.
  destruct (constants_step_quiet cl) as [L0 G0].
  destruct (constants_step env cl) as [t0 [[] | status | |]];
    try discriminate R.
  rewrite bind_ok in R. cbn [fst] in L0, G0.
  destruct (launch_bots env (overrideSwitch cl) (otherArgs cl)
              (mkNetworking [])) as [t1 r1] eqn:R1.
  cbn [fst snd] in R. injection R as <- ->.
  apply launch_bots_ok in R1. destruct R1 as (-> & -> & Hne & ->).
  rewrite launches_app, filter_app, L0, G0, launches_LaunchBot,
    no_game_event_LaunchBot.
  repeat split; auto.
Qed.

(** The launch of the bots stops at the first launch that fails. *)
Lemma launch_bots_override_first (args : list string)
  (networking : Networking) :
  (4 <= List.length args)%nat -> Nat.Even (List.length args) ->
  (never_fails env networking (commands_of args) /\
   launch_bots env true args networking
   = (map LaunchBot (commands_of args),
      Ok (after networking (commands_of args), Some (names_of args))))
  \/ exists k : nat,
    fails_first_at env networking (commands_of args) k /\
    launch_bots env true args networking
    = (map LaunchBot (firstn (S k) (commands_of args))
         ++ [Stdout override_launch_message],
       Exit 1).
Proof.
  intros Hge [n Hn]. unfold launch_bots.
  assert (E : (Z.of_nat (List.length args) <? 4)
              || negb (Z.rem (Z.of_nat (List.length args)) 2 =? 0) = false).
  { apply orb_false_iff. split.
    - apply Z.ltb_ge. lia.
    - now rewrite Hn, size_even_rem. }
  rewrite E.
  destruct (launch_pairs_first env n args networking [] Hn)
    as [[Hnever R] | (k & Hk & R)]; rewrite R.
  - left. split; [exact Hnever |].
    unfold try_catch, bind, ret; cbn [fst snd app]. now rewrite app_nil_r.
  - right. exists k. split; [exact Hk | reflexivity].
Qed.

Lemma launch_bots_default_first (args : list string)
  (networking : Networking) :
  args <> [] ->
  (never_fails env networking args /\
   launch_bots env false args networking
   = (map LaunchBot args, Ok (after networking args, None)))
  \/ exists k : nat,
    fails_first_at env networking args k /\
    launch_bots env false args networking
    = (map LaunchBot (firstn (S k) args) ++ [Stdout launch_failed_message],
       Exit 1).
Proof.
  intros Hne. unfold launch_bots.
  assert (E : (Z.of_nat (List.length args) <? 1) = false).
  { apply Z.ltb_ge. destruct args; [congruence | cbn [List.length]; lia]. }
  rewrite E.
  destruct (launch_each_first env args networking)
    as [[Hnever R] | (k & Hk & R)]; rewrite R.
  - left. split; [exact Hnever |].
    unfold try_catch, bind, ret; cbn [fst snd app]. now rewrite app_nil_r.
  - right. exists k. split; [exact Hk | reflexivity].
Qed.

End LaunchStep.

(** The checks of lines 244-259 reject exactly the invalid set-ups. *)
Lemma check_player_count_invalid (networking : Networking) (n : Z) :
  InvalidMatchSetup networking n ->
  check_player_count networking n = ([Stdout single_player_message], Exit 1)
  \/ check_player_count networking n = ([Stdout capacity_message], Exit 1).
Proof.
  unfold InvalidMatchSetup, players_for_map, check_player_count.
  intros Hbad.
  destruct (player_count networking >? 1) eqn:Ec; cbn [andb].
  - destruct (n =? 1) eqn:En; cbn [negb]; [| now left].
    right. rewrite bind_ret.
    assert (E : (to_unsigned_short (player_count networking) >? 6)
                || (to_unsigned_short (player_count networking) <? 1) = true).
    { apply Z.eqb_eq in En. apply orb_true_iff.
      destruct Hbad as [[_ Hn] | Hr]; [contradiction |].
      destruct (Z.ltb_spec (to_unsigned_short (player_count networking)) 1);
        [now right | left]. apply Z.gtb_lt. lia. }
    now rewrite E.
  - right. rewrite bind_ret.
    assert (E : (n >? 6) || (n <? 1) = true).
    { apply orb_true_iff.
      assert (Hc : ~ 1 < player_count networking).
      { intros Hc. apply Z.gtb_lt in Hc. congruence. }
      destruct Hbad as [[Hc' _] | Hr]; [contradiction |].
      destruct (Z.ltb_spec n 1); [now right | left]. apply Z.gtb_lt. lia. }
    now rewrite E.
Qed.

Lemma check_player_count_valid (networking : Networking) (n : Z) :
  ~ InvalidMatchSetup networking n ->
  check_player_count networking n = ([], Ok (players_for_map networking n)).
Proof.
  unfold InvalidMatchSetup, players_for_map, check_player_count.
  intros Hok.
  assert (E1 : (player_count networking >? 1) && negb (n =? 1) = false).
  { apply andb_false_iff.
    destruct (Z.gtb_spec (player_count networking) 1); [| now left].
    right. destruct (Z.eqb_spec n 1); [reflexivity | tauto]. }
  rewrite E1, bind_ret.
  set (n' := if player_count networking >? 1 then _ else n) in *.
  assert (E2 : (n' >? 6) || (n' <? 1) = false).
  { apply orb_false_iff. split; [rewrite Z.gtb_ltb |]; apply Z.ltb_ge; lia. }
  now rewrite E2.
Qed.

(** ** The game and the final report *)

Section Report.
Variable env : Environment.

(** The loop over the player indices prints one line per player, in the
    order of the statistics. *)
Lemma summary_loop_run (game : Halite) (stats : GameStatistics)
  (rest : list PlayerStatistics) :
  forall pre : list PlayerStatistics,
    player_statistics stats = pre ++ rest ->
    summary_loop env game stats (List.length rest) (List.length pre)
    = (map (fun p => Stdout (player_summary env game p)) rest, Ok tt).
Proof.
  induction rest as [| p rest IH]; intros pre Hsplit; [reflexivity |].
  cbn [List.length summary_loop].
  rewrite Hsplit, nth_error_app2, Nat.sub_diag by lia. cbn [nth_error].
  unfold print, emit. rewrite bind_ok.
  replace (S (List.length pre)) with (List.length (pre ++ [p]))
    by (rewrite length_app; cbn; lia).
  rewrite (IH (pre ++ [p])) by (now rewrite <- app_assoc).
  reflexivity.
Qed.

Lemma report_statistics_run (quiet_output : bool) (game : Halite)
  (stats : GameStatistics) :
  report_statistics env quiet_output game stats
  = (final_report env quiet_output game stats, Ok tt).
Proof.
  unfold report_statistics, final_report. destruct quiet_output.
  - reflexivity.
  - apply (summary_loop_run game stats (player_statistics stats) []).
    reflexivity.
Qed.

Lemma final_report_quiet (quiet_output : bool) (game : Halite)
  (stats : GameStatistics) :
  launches (final_report env quiet_output game stats) = [] /\
  filter is_game_event (final_report env quiet_output game stats) = [].
Proof.
  unfold final_report. destruct quiet_output; [split; reflexivity |].
  induction (player_statistics stats) as [| p ps [IH1 IH2]];
    split; cbn; auto.
Qed.

(** [back] is defined on the strings that are not empty. *)
Lemma back_defined (s : string) :
  s <> EmptyString -> exists c : ascii, back s = Some c.
Proof.
  induction s as [| a rest IH]; [congruence | intros _].
  destruct rest as [| b rest]; [now exists a |].
  apply IH. discriminate.
Qed.

Lemma back_append_separator (s : string) : back (s ++ "/") = Some "/"%char.
Proof.
  induction s as [| c rest IH]; [reflexivity |].
  cbn [append back]. rewrite IH. now destruct rest.
Qed.

Lemma with_separator_run (s : string) :
  s <> EmptyString -> with_separator s = ([], Ok (separated s)).
Proof.
  intros Hs. destruct (back_defined s Hs) as [c E].
  unfold with_separator, separated. rewrite E.
  now destruct (Ascii.eqb c "/").
Qed.

Lemma back_separated (s : string) :
  s <> EmptyString -> back (separated s) = Some "/"%char.
Proof.
  intros Hs. destruct (back_defined s Hs) as [c E].
  unfold separated. rewrite E.
  destruct (Ascii.eqb_spec c "/"%char) as [-> | _];
    [exact E | apply back_append_separator].
Qed.

Lemma play_game_run (cl : CommandLine) (mapWidth mapHeight seed id n : Z)
  (networking : Networking) (names : option (list string)) :
  getValue "."%string (replayDirectoryArg cl) <> EmptyString ->
  let game := mkHalite mapWidth mapHeight seed n networking (timeoutSwitch cl) in
  let replay := negb (noReplaySwitch cl) in
  play_game env cl mapWidth mapHeight seed id n networking names
  = ([CreateGame game; RunGame names seed id replay (replay_directory cl)]
       ++ final_report env (quietSwitch cl) game
            (run_game env game names seed id replay (replay_directory cl)),
     Exit 0).
Proof.
  intros Hdir game replay. unfold play_game, emit, replay_directory.
  fold game replay.
  rewrite (with_separator_run _ Hdir).
  rewrite !bind_ok, report_statistics_run, bind_ok. cbn [fst snd exit app].
  now rewrite app_nil_r.
Qed.

Lemma play_game_undefined (cl : CommandLine)
  (mapWidth mapHeight seed id n : Z) (networking : Networking)
  (names : option (list string)) :
  getValue "."%string (replayDirectoryArg cl) = EmptyString ->
  play_game env cl mapWidth mapHeight seed id n networking names
  = ([CreateGame
        (mkHalite mapWidth mapHeight seed n networking (timeoutSwitch cl))],
     Undefined).
Proof.
  intros Hdir. unfold play_game, emit. now rewrite Hdir.
Qed.

End Report.

(** ** The runs of [main] *)

Lemma InvalidMatchSetup_dec (networking : Networking) (n : Z) :
  {InvalidMatchSetup networking n} + {~ InvalidMatchSetup networking n}.
Proof.
  unfold InvalidMatchSetup.
  destruct (Z_lt_dec 1 (player_count networking)) as [Hc | Hc];
    destruct (Z.eq_dec n 1) as [Hn | Hn];
    destruct (Z_le_dec 1 (players_for_map networking n)) as [H1 | H1];
    destruct (Z_le_dec (players_for_map networking n) 6) as [H6 | H6];
    try (left; solve [left; auto | right; lia]);
    right; intros [[? ?] | ?]; auto; lia.
Qed.

Section Runs.
Variable env : Environment.

Lemma main_exit (cl : CommandLine) (t : list event) (status : Z) :
  launch_step env cl = (t, Exit status) -> main env cl = (t, Exit status).
Proof. intros R. unfold main. now rewrite R. Qed.

Lemma main_invalid (cl : CommandLine) (t : list event)
  (networking : Networking) (names : option (list string)) :
  launch_step env cl = (t, Ok (networking, names)) ->
  InvalidMatchSetup networking (requested_players cl) ->
  main env cl = (t ++ [Stdout single_player_message], Exit 1)
  \/ main env cl = (t ++ [Stdout capacity_message], Exit 1).
Proof.
  intros R Hbad. unfold main. rewrite R, bind_ok. cbn [fst snd].
  destruct (check_player_count_invalid _ _ Hbad) as [C | C];
    fold (requested_players cl); rewrite C; [left | right]; reflexivity.
Qed.

Lemma main_valid (cl : CommandLine) (t : list event)
  (networking : Networking) (names : option (list string)) :
  launch_step env cl = (t, Ok (networking, names)) ->
  ~ InvalidMatchSetup networking (requested_players cl) ->
  getValue "."%string (replayDirectoryArg cl) <> EmptyString ->
  let game := created_game env cl networking in
  let replay := negb (noReplaySwitch cl) in
  main env cl
  = (t ++ [CreateGame game;
           RunGame names (game_seed game) (game_id env) replay
                   (replay_directory cl)]
       ++ final_report env (quietSwitch cl) game
            (run_game env game names (game_seed game) (game_id env) replay
               (replay_directory cl)),
     Exit 0).
Proof.
  intros R Hok Hdir game replay. unfold main. rewrite R, bind_ok.
  cbn [fst snd]. fold (requested_players cl).
  rewrite (check_player_count_valid _ _ Hok), bind_ok.
  rewrite (play_game_run env cl _ _ _ _ _ _ _ Hdir).
  reflexivity.
Qed.

(** With an empty replay directory [main] creates the game and then calls
    [back()] on the empty string. *)
Lemma main_valid_undefined (cl : CommandLine) (t : list event)
  (networking : Networking) (names : option (list string)) :
  launch_step env cl = (t, Ok (networking, names)) ->
  ~ InvalidMatchSetup networking (requested_players cl) ->
  getValue "."%string (replayDirectoryArg cl) = EmptyString ->
  main env cl
  = (t ++ [CreateGame (created_game env cl networking)], Undefined).
Proof.
  intros R Hok Hdir. unfold main. rewrite R, bind_ok.
  cbn [fst snd]. fold (requested_players cl).
  rewrite (check_player_count_valid _ _ Hok), bind_ok.
  rewrite (play_game_undefined env cl _ _ _ _ _ _ _ Hdir).
  reflexivity.
Qed.

(** The three ways the constants step ends. *)
Lemma constants_step_cases (cl : CommandLine) :
  (printConstantsSwitch cl = true /\
   constants_step env cl
   = ([Stdout (EmptyString << default_constants_dump env << endl)], Exit 0))
  \/ (printConstantsSwitch cl = false /\
      exists file : string,
        constantsArg cl = Some file /\ read_constants env file = None /\
        constants_step env cl = ([ReadConstants file], Throw))
  \/ (printConstantsSwitch cl = false /\
      exists t0 : list event,
        constants_step env cl = (t0, Ok tt) /\
        launches t0 = [] /\ filter is_game_event t0 = [] /\
        (quietSwitch cl = true -> stdout_of t0 = [])).
Proof.
  unfold constants_step, update_constants.
  destruct (printConstantsSwitch cl); [left; split; reflexivity | right].
  destruct (constantsArg cl) as [file |].
  - destruct (read_constants env file) as [constants |] eqn:E.
    + right. split; [reflexivity |].
      destruct (quietSwitch cl); eexists; repeat split; discriminate.
    + left. split; [reflexivity |]. exists file. repeat split. exact E.
  - right. split; [reflexivity |].
    destruct (quietSwitch cl); eexists; repeat split; discriminate.
Qed.

(** The two ways the launch of the bots ends: every start command launched,
    or an exit with status 1 after a message, a prefix of the start commands
    having been launched. *)
Lemma launch_bots_cases (override_names : bool) (args : list string)
  (networking : Networking) :
  let commands := start_commands override_names args in
  (launch_bots env override_names args networking
   = (map LaunchBot commands,
      Ok (after networking commands,
          if override_names then Some (names_of args) else None)) /\
   commands <> [] /\
   (override_names = true -> Nat.Even (List.length args)))
  \/ exists (k : nat) (message : string),
    launch_bots env override_names args networking
    = (map LaunchBot (firstn k commands) ++ [Stdout message], Exit 1).
Proof.
  destruct override_names; cbn [start_commands].
  - destruct (Nat.Even_or_Odd (List.length args)) as [Hev | Hodd];
      [destruct (Nat.lt_ge_cases (List.length args) 4) as [Hlt | Hge] |].
    + right. exists 0%nat, override_count_message.
      now rewrite launch_bots_override_count by auto.
    + destruct (launch_bots_override_pairs env args networking Hge Hev)
        as [R | (k & _ & R)].
      * left. repeat split; auto.
        destruct args as [| c [| name rest]]; cbn [List.length] in Hge;
          try lia; discriminate.
      * right. now exists (S k), override_launch_message.
    + right. exists 0%nat, override_count_message.
      now rewrite launch_bots_override_count by auto.
  - destruct args as [| c rest].
    + right. now exists 0%nat, no_bot_message.
    + destruct (launch_bots_default env (c :: rest) networking
                  ltac:(discriminate)) as [R | (k & _ & R)].
      * left. repeat split; [exact R | discriminate | discriminate].
      * right. now exists (S k), launch_failed_message.
Qed.

(** The runs of [main]: the constants are printed; or reading the constants
    file throws; or [main] exits with status 1 after a message, a prefix of
    the start commands having been launched; or every start command is
    launched and the game is created, and then, unless the replay directory
    is empty, run and reported. *)
Lemma main_cases (cl : CommandLine) :
  let commands := start_commands (overrideSwitch cl) (otherArgs cl) in
  let names :=
    if overrideSwitch cl then Some (names_of (otherArgs cl)) else None in
  let game := created_game env cl (mkNetworking commands) in
  let replay := negb (noReplaySwitch cl) in
  (printConstantsSwitch cl = true /\
   main env cl
   = ([Stdout (EmptyString << default_constants_dump env << endl)], Exit 0))
  \/ (printConstantsSwitch cl = false /\
      exists file : string,
        constantsArg cl = Some file /\ read_constants env file = None /\
        main env cl = ([ReadConstants file], Throw))
  \/ (printConstantsSwitch cl = false /\
      exists t0 : list event,
        launches t0 = [] /\ filter is_game_event t0 = [] /\
        (quietSwitch cl = true -> stdout_of t0 = []) /\
        ((exists (k : nat) (message : string),
             main env cl
             = (t0 ++ map LaunchBot (firstn k commands) ++ [Stdout message],
                Exit 1))
         \/ (commands <> [] /\
             (overrideSwitch cl = true ->
              Nat.Even (List.length (otherArgs cl))) /\
             ~ InvalidMatchSetup (mkNetworking commands)
                 (requested_players cl) /\
             ((getValue "."%string (replayDirectoryArg cl) = EmptyString /\
               main env cl
               = (t0 ++ map LaunchBot commands ++ [CreateGame game],
                  Undefined))
              \/ (getValue "."%string (replayDirectoryArg cl) <> EmptyString /\
                  main env cl
                  = (t0 ++ map LaunchBot commands
                       ++ [CreateGame game;
                           RunGame names (game_seed game) (game_id env)
                                   replay (replay_directory cl)]
                       ++ final_report env (quietSwitch cl) game
                            (run_game env game names (game_seed game)
                               (game_id env) replay (replay_directory cl)),
                     Exit 0)))))).
Proof.
  intros commands names game replay.
  destruct (constants_step_cases cl)
    as [[Hp R0] | [(Hp & file & Hf & Hr & R0) | (Hp & t0 & R0 & L0 & G0 & Q0)]].
  - left. split; [exact Hp |]. unfold main, launch_step. now rewrite R0.
  - right; left. split; [exact Hp |]. exists file. repeat split; auto.
    unfold main, launch_step. now rewrite R0.
  - right; right. split; [exact Hp |]. exists t0.
    split; [exact L0 |]. split; [exact G0 |]. split; [exact Q0 |].
    assert (Hstep : launch_step env cl
                    = bind (t0, Ok tt)
                        (fun _ => launch_bots env (overrideSwitch cl)
                                    (otherArgs cl) (mkNetworking []))).
    { unfold launch_step. now rewrite R0. }
    rewrite bind_ok in Hstep.
    destruct (launch_bots_cases (overrideSwitch cl) (otherArgs cl)
                (mkNetworking [])) as [(R & Hne & Hev) | (k & message & R)];
      rewrite R in Hstep; cbn [fst snd] in Hstep.
    + fold commands in Hstep, Hne.
      change (after (mkNetworking []) commands) with (mkNetworking commands)
        in Hstep.
      fold names in Hstep.
      destruct (InvalidMatchSetup_dec (mkNetworking commands)
                  (requested_players cl)) as [Hbad | Hok].
      * left. exists (List.length commands).
        rewrite firstn_all.
        destruct (main_invalid cl _ _ _ Hstep Hbad) as [E | E];
          eexists; rewrite E, <- app_assoc; reflexivity.
      * right. split; [exact Hne |]. split; [exact Hev |].
        split; [exact Hok |].
        destruct (string_dec (getValue "."%string (replayDirectoryArg cl))
                    EmptyString) as [Hdir | Hdir].
        -- left. split; [exact Hdir |].
           rewrite (main_valid_undefined cl _ _ _ Hstep Hok Hdir),
             <- app_assoc.
           reflexivity.
        -- right. split; [exact Hdir |].
           rewrite (main_valid cl _ _ _ Hstep Hok Hdir), <- app_assoc.
           reflexivity.
    + left. exists k, message. fold commands in Hstep.
      now apply main_exit.
Qed.

(** The game events of a run, with what holds when there are any. *)
Lemma main_game_trace (cl : CommandLine) :
  let commands := start_commands (overrideSwitch cl) (otherArgs cl) in
  let names :=
    if overrideSwitch cl then Some (names_of (otherArgs cl)) else None in
  let game := created_game env cl (mkNetworking commands) in
  filter is_game_event (fst (main env cl)) = []
  \/ (commands <> [] /\
      (overrideSwitch cl = true -> Nat.Even (List.length (otherArgs cl))) /\
      ~ InvalidMatchSetup (mkNetworking commands) (requested_players cl) /\
      launches (fst (main env cl)) = commands /\
      ((getValue "."%string (replayDirectoryArg cl) = EmptyString /\
        filter is_game_event (fst (main env cl)) = [CreateGame game])
       \/ (getValue "."%string (replayDirectoryArg cl) <> EmptyString /\
           filter is_game_event (fst (main env cl))
           = [CreateGame game;
              RunGame names (game_seed game) (game_id env)
                      (negb (noReplaySwitch cl)) (replay_directory cl)]))).
Proof.
  intros commands names game.
  destruct (main_cases cl)
    as [[_ E] | [(Hp & file & Hf & Hr & E)
                | (_ & t0 & L0 & G0 & _ &
                   [(k & message & E)
                   | (Hne & Hev & Hok & [[Hdir E] | [Hdir E]])])]];
    rewrite E; cbn [fst].
  - now left.
  - now left.
  - left. now rewrite !filter_app, G0, no_game_event_LaunchBot.
  - right. split; [exact Hne |]. split; [exact Hev |]. split; [exact Hok |].
    split.
    + rewrite !launches_app, L0, launches_LaunchBot. cbn.
      now rewrite app_nil_r.
    + left. split; [exact Hdir |].
      now rewrite !filter_app, G0, no_game_event_LaunchBot.
  - right. split; [exact Hne |]. split; [exact Hev |]. split; [exact Hok |].
    split.
    + rewrite !launches_app, L0, launches_LaunchBot.
      match goal with
      | |- context [final_report ?e ?q ?g ?st] =>
          destruct (final_report_quiet e q g st) as [-> _]
      end.
      cbn. now rewrite app_nil_r.
    + right. split; [exact Hdir |].
      rewrite !filter_app, G0, no_game_event_LaunchBot.
      match goal with
      | |- context [final_report ?e ?q ?g ?st] =>
          destruct (final_report_quiet e q g st) as [_ ->]
      end.
      reflexivity.
Qed.

(** Once the constants step is over and the launch loop is reached, the loop
    launches every start command when no launch fails, and [main] exits with
    status 1 right after the first launch that fails. *)
Lemma main_first_failure (cl : CommandLine) (t0 : list event) :
  constants_step env cl = (t0, Ok tt) ->
  (if overrideSwitch cl
   then (4 <= List.length (otherArgs cl))%nat
        /\ Nat.Even (List.length (otherArgs cl))
   else otherArgs cl <> []) ->
  let commands := start_commands (overrideSwitch cl) (otherArgs cl) in
  (never_fails env (mkNetworking []) commands \/
   exists k : nat, fails_first_at env (mkNetworking []) commands k) /\
  (never_fails env (mkNetworking []) commands ->
   launch_step env cl
   = (t0 ++ map LaunchBot commands,
      Ok (mkNetworking commands,
          if overrideSwitch cl then Some (names_of (otherArgs cl))
          else None))) /\
  (forall k : nat,
      fails_first_at env (mkNetworking []) commands k ->
      main env cl
      = (t0 ++ map LaunchBot (firstn (S k) commands)
           ++ [Stdout (if overrideSwitch cl then override_launch_message
                       else launch_failed_message)],
         Exit 1)).
Proof.
  intros R0 Hcount commands.
  assert (Hstep : launch_step env cl
                  = bind (t0, Ok tt)
                      (fun _ => launch_bots env (overrideSwitch cl)
                                  (otherArgs cl) (mkNetworking []))).
  { unfold launch_step. now rewrite R0. }
  rewrite bind_ok in Hstep.
  assert (Hrun :
    (never_fails env (mkNetworking []) commands /\
     launch_bots env (overrideSwitch cl) (otherArgs cl) (mkNetworking [])
     = (map LaunchBot commands,
        Ok (mkNetworking commands,
            if overrideSwitch cl then Some (names_of (otherArgs cl))
            else None)))
    \/ exists k : nat,
      fails_first_at env (mkNetworking []) commands k /\
      launch_bots env (overrideSwitch cl) (otherArgs cl) (mkNetworking [])
      = (map LaunchBot (firstn (S k) commands)
           ++ [Stdout (if overrideSwitch cl then override_launch_message
                       else launch_failed_message)],
         Exit 1)).
  { subst commands. destruct (overrideSwitch cl); cbn [start_commands].
    - destruct Hcount as [Hge Hev].
      apply (launch_bots_override_first env _ (mkNetworking []) Hge Hev).
    - apply (launch_bots_default_first env _ (mkNetworking []) Hcount). }
  destruct Hrun as [[Hnever R] | (k & Hk & R)]; rewrite R in Hstep;
    cbn [fst snd] in Hstep.
  - split; [now left |]. split; [intros _; exact Hstep |].
    intros k [Hk _]. destruct (never_fails_excludes env _ _ k Hnever Hk).
  - split; [right; now exists k |]. split.
    + intros Hnever.
      destruct (never_fails_excludes env _ _ k Hnever (proj1 Hk)).
    + intros k' Hk'.
      rewrite (fails_first_at_unique env _ _ k' k Hk' Hk).
      now apply main_exit.
Qed.

End Runs.

(** ** Invalid match set-up *)

(** C6 (as amended).  When the launch step is over and the match set-up is
    invalid as [main] checks it -- several bots were launched while the
    requested player count, reduced modulo 2^16 as [main] stores it, is other
    than 1; or the player count for the map (the number of launched bots
    modulo 2^16 when several were launched, the requested count modulo 2^16
    otherwise) is outside 1..6 -- [main] reports it and exits with status 1
    without creating or running a game; by then every bot start command has
    been launched, and there is at least one. *)
Theorem invalid_setup_exits_after_launch (env : Environment)
  (cl : CommandLine) (t : list event) (networking : Networking)
  (names : option (list string)) :
  launch_step env cl = (t, Ok (networking, names)) ->
  let bots := Z.of_nat (List.length (launched networking)) in
  let requested := getValue 1 (nPlayersArg cl) mod 2 ^ 16 in
  (1 < bots /\ requested <> 1) \/
  ~ (1 <= (if bots >? 1 then bots mod 2 ^ 16 else requested) <= 6) ->
  (main env cl = (t ++ [Stdout single_player_message], Exit 1)
   \/ main env cl = (t ++ [Stdout capacity_message], Exit 1)) /\
  filter is_game_event (fst (main env cl)) = [] /\
  launches (fst (main env cl))
  = start_commands (overrideSwitch cl) (otherArgs cl) /\
  launched networking = start_commands (overrideSwitch cl) (otherArgs cl) /\
  start_commands (overrideSwitch cl) (otherArgs cl) <> [].
Proof.
  intros R bots requested Hbad.
  change (InvalidMatchSetup networking (requested_players cl)) in Hbad.
  destruct (launch_step_ok env cl networking names t R)
    as (HL & HN & Hne & HG & _).
  pose proof (main_invalid env cl t networking names R Hbad) as Hmain.
  split; [exact Hmain |].
  destruct Hmain as [E | E]; rewrite E; cbn [fst];
    rewrite filter_app, launches_app, HG, HL;
    cbn [filter is_game_event launches flat_map app];
    rewrite app_nil_r; repeat split; auto.
Qed.

Lemma invalid_setup_exits_after_launch_witness :
  (main (sample_environment []) two_bots_three_players
   = ([Stdout (EmptyString << "Game constants: all default"%string << endl);
       LaunchBot "./a"; LaunchBot "./b"]
        ++ [Stdout single_player_message], Exit 1)
   \/ main (sample_environment []) two_bots_three_players
      = ([Stdout (EmptyString << "Game constants: all default"%string << endl);
          LaunchBot "./a"; LaunchBot "./b"]
           ++ [Stdout capacity_message], Exit 1)) /\
  filter is_game_event (fst (main (sample_environment [])
                               two_bots_three_players)) = [] /\
  launches (fst (main (sample_environment []) two_bots_three_players))
  = ["./a"; "./b"]%string /\
  launched (mkNetworking ["./a"; "./b"]%string) = ["./a"; "./b"]%string /\
  ["./a"; "./b"]%string <> [].
Proof.
  apply (invalid_setup_exits_after_launch (sample_environment [])
           two_bots_three_players
           [Stdout (EmptyString << "Game constants: all default"%string
                      << endl);
            LaunchBot "./a"; LaunchBot "./b"]
           (mkNetworking ["./a"; "./b"]%string) None).
  - reflexivity.
  - left. split; [reflexivity | discriminate].
Defined.

(** C6 as stated fails: with two bots and a requested player count of 3 the
    set-up is invalid and the exit status is 1, but both bots have been
    launched before the check. *)
Lemma invalid_setup_found_after_launch :
  launch_step (sample_environment []) two_bots_three_players
  = ([Stdout (EmptyString << "Game constants: all default"%string << endl);
      LaunchBot "./a"; LaunchBot "./b"],
     Ok (mkNetworking ["./a"; "./b"]%string, None)) /\
  InvalidMatchSetup (mkNetworking ["./a"; "./b"]%string)
                    (requested_players two_bots_three_players) /\
  main (sample_environment []) two_bots_three_players
  = ([Stdout (EmptyString << "Game constants: all default"%string << endl);
      LaunchBot "./a"; LaunchBot "./b"; Stdout single_player_message],
     Exit 1) /\
  ~ (launches (fst (main (sample_environment []) two_bots_three_players))
     = []).
Proof.
  repeat split; try discriminate.
  left. split; [reflexivity | discriminate].
Qed.

(** The requested player count is compared after its conversion to
    [unsigned short]: with [-n 65537] and two bots the set-up passes the
    checks and the game is run for 2 players. *)
Example wrapped_player_count_accepted :
  main (sample_environment [])
       (mkCommandLine true false false false (Some 65537) None (Some 42) None
                      None false ["./a"; "./b"]%string)
  = ([LaunchBot "./a"; LaunchBot "./b";
      CreateGame (mkHalite 128 128 42 2 (mkNetworking ["./a"; "./b"]%string)
                           false);
      RunGame None 42 1540000000 true "./";
      Stdout "{stats}"],
     Exit 0).
Proof. reflexivity. Qed.

(** ** Override mode *)

(** C7 (as amended).  In override mode, once the constants step is over: when
    the number of trailing arguments is less than 4 or odd, [main] reports
    the error and exits with status 1 without launching any bot; when it is
    even and at least 4, the arguments are taken as (start command, name)
    pairs in order.  Either no launch fails or there is a first launch that
    fails.  If no launch fails, every command is launched and every name
    recorded, in order.  If the launch of the command at index [k] is the
    first that fails, exactly the commands up to and including it have been
    launched, no name is kept, and [main] reports the error and exits with
    status 1. *)
Theorem override_mode_launch (env : Environment) (cl : CommandLine)
  (t0 : list event) :
  overrideSwitch cl = true ->
  constants_step env cl = (t0, Ok tt) ->
  let commands := commands_of (otherArgs cl) in
  ((List.length (otherArgs cl) < 4)%nat \/ Nat.Odd (List.length (otherArgs cl)) ->
   main env cl = (t0 ++ [Stdout override_count_message], Exit 1) /\
   launches (fst (main env cl)) = []) /\
  ((4 <= List.length (otherArgs cl))%nat ->
   Nat.Even (List.length (otherArgs cl)) ->
   (never_fails env (mkNetworking []) commands \/
    exists k : nat, fails_first_at env (mkNetworking []) commands k) /\
   (never_fails env (mkNetworking []) commands ->
    launch_step env cl
    = (t0 ++ map LaunchBot commands,
       Ok (mkNetworking commands, Some (names_of (otherArgs cl)))) /\
    launches (fst (main env cl)) = commands) /\
   (forall k : nat,
       fails_first_at env (mkNetworking []) commands k ->
       main env cl
       = (t0 ++ map LaunchBot (firstn (S k) commands)
            ++ [Stdout override_launch_message],
          Exit 1) /\
       launches (fst (main env cl)) = firstn (S k) commands)).
Proof.
  intros Hov R0 commands.
  destruct (constants_step_quiet env cl) as [L0 _]. rewrite R0 in L0.
  cbn [fst] in L0.
  split.
  - intros Hbad.
    assert (Hstep : launch_step env cl
                    = bind (t0, Ok tt)
                        (fun _ => launch_bots env true (otherArgs cl)
                                    (mkNetworking []))).
    { unfold launch_step. now rewrite R0, Hov. }
    rewrite bind_ok in Hstep.
    rewrite launch_bots_override_count in Hstep by exact Hbad.
    cbn [fst snd] in Hstep. rewrite (main_exit env cl _ _ Hstep). cbn [fst].
    split; [reflexivity | now rewrite launches_app, L0].
  - intros Hge Hev.
    assert (Hcount : if overrideSwitch cl
                     then (4 <= List.length (otherArgs cl))%nat
                          /\ Nat.Even (List.length (otherArgs cl))
                     else otherArgs cl <> [])
      by (rewrite Hov; auto).
    destruct (main_first_failure env cl t0 R0 Hcount) as (Hex & Hok & Hfail).
    rewrite Hov in Hex, Hok, Hfail. cbn [start_commands] in Hex, Hok, Hfail.
    fold commands in Hex, Hok, Hfail.
    split; [exact Hex |]. split.
    + intros Hnever. split; [exact (Hok Hnever) |].
      destruct (launch_step_ok env cl _ _ _ (Hok Hnever)) as (_ & HN & _).
      cbn [launched] in HN.
      destruct (main_game_trace env cl) as [E | (_ & _ & _ & HL & _)].
      * destruct (InvalidMatchSetup_dec (mkNetworking commands)
                    (requested_players cl)) as [Hbad | Hvalid].
        -- destruct (main_invalid env cl _ _ _ (Hok Hnever) Hbad) as [M | M];
             rewrite M; cbn [fst];
             rewrite !launches_app, L0, launches_LaunchBot; cbn;
             now rewrite app_nil_r.
        -- destruct (string_dec (getValue "."%string (replayDirectoryArg cl))
                       EmptyString) as [Hdir | Hdir].
           ++ rewrite (main_valid_undefined env cl _ _ _ (Hok Hnever) Hvalid
                         Hdir) in E.
              cbn [fst] in E. rewrite filter_app in E.
              destruct (filter is_game_event
                          (t0 ++ map LaunchBot commands)); discriminate E.
           ++ rewrite (main_valid env cl _ _ _ (Hok Hnever) Hvalid Hdir) in E.
              cbn [fst] in E. rewrite filter_app in E.
              destruct (filter is_game_event
                          (t0 ++ map LaunchBot commands)); discriminate E.
      * rewrite HL, Hov. reflexivity.
    + intros k Hk. split; [exact (Hfail k Hk) |].
      rewrite (Hfail k Hk). cbn [fst].
      rewrite !launches_app, L0, launches_LaunchBot. cbn.
      now rewrite app_nil_r.
Qed.

Lemma override_mode_launch_witness :
  let env := sample_environment ["./b"%string] in
  let commands := commands_of (otherArgs three_pairs) in
  ((List.length (otherArgs three_pairs) < 4)%nat
   \/ Nat.Odd (List.length (otherArgs three_pairs)) ->
   main env three_pairs = ([] ++ [Stdout override_count_message], Exit 1) /\
   launches (fst (main env three_pairs)) = []) /\
  ((4 <= List.length (otherArgs three_pairs))%nat ->
   Nat.Even (List.length (otherArgs three_pairs)) ->
   (never_fails env (mkNetworking []) commands \/
    exists k : nat, fails_first_at env (mkNetworking []) commands k) /\
   (never_fails env (mkNetworking []) commands ->
    launch_step env three_pairs
    = ([] ++ map LaunchBot commands,
       Ok (mkNetworking commands, Some (names_of (otherArgs three_pairs)))) /\
    launches (fst (main env three_pairs)) = commands) /\
   (forall k : nat,
       fails_first_at env (mkNetworking []) commands k ->
       main env three_pairs
       = ([] ++ map LaunchBot (firstn (S k) commands)
            ++ [Stdout override_launch_message],
          Exit 1) /\
       launches (fst (main env three_pairs)) = firstn (S k) commands)).
Proof.
  intros env.
  apply (override_mode_launch env three_pairs []).
  - reflexivity.
  - reflexivity.
Defined.

(** In the run of the witness the launch of the second command is the first
    that fails. *)
Example override_second_launch_fails_first :
  fails_first_at (sample_environment ["./b"%string]) (mkNetworking [])
                 (commands_of (otherArgs three_pairs)) 1.
Proof.
  split; [split; [cbn; lia | reflexivity] |].
  intros j Hj. assert (j = 0%nat) as -> by lia. reflexivity.
Qed.

(** C7 as stated fails when a launch fails: with six trailing arguments and
    the launch of the second command failing, the third command is never
    launched and [main] exits with status 1. *)
Lemma override_launch_failure :
  overrideSwitch three_pairs = true /\
  List.length (otherArgs three_pairs) = 6%nat /\
  commands_of (otherArgs three_pairs) = ["./a"; "./b"; "./c"]%string /\
  main (sample_environment ["./b"%string]) three_pairs
  = ([LaunchBot "./a"; LaunchBot "./b"; Stdout override_launch_message],
     Exit 1) /\
  ~ (launches (fst (main (sample_environment ["./b"%string]) three_pairs))
     = commands_of (otherArgs three_pairs)).
Proof. repeat split; discriminate. Qed.

(** ** The final statistics *)

(** C8.  When the set-up is valid and the replay directory is not empty (so
    that the game is run), [main] runs the game and then writes its
    statistics in one of two forms chosen by the quiet switch alone: with the
    switch set, the encoding of the statistics object and nothing else; with
    it unset, one line per player, in order, holding the player's tag, name,
    rank, last frame alive, number of ships produced and damage dealt.
    Nothing else is written after the game, and [main] returns 0. *)
Theorem final_statistics_report (env : Environment) (cl : CommandLine)
  (t : list event) (networking : Networking) (names : option (list string)) :
  launch_step env cl = (t, Ok (networking, names)) ->
  ~ InvalidMatchSetup networking (requested_players cl) ->
  getValue "."%string (replayDirectoryArg cl) <> EmptyString ->
  let game := created_game env cl networking in
  let replay := negb (noReplaySwitch cl) in
  let stats :=
    run_game env game names (game_seed game) (game_id env) replay
             (replay_directory cl) in
  main env cl
  = (t ++ [CreateGame game;
           RunGame names (game_seed game) (game_id env) replay
                   (replay_directory cl)]
       ++ (if quietSwitch cl
           then [Stdout (statistics_out env stats)]
           else map (fun p => Stdout (player_summary env game p))
                    (player_statistics stats)),
     Exit 0) /\
  forall p : PlayerStatistics,
    player_summary env game p
    = ("Player #" ++ stream_out (tag p) ++ ", " ++ get_name env game (tag p)
       ++ ", came in rank #" ++ stream_out (rank p)
       ++ " and was last alive on frame #" ++ stream_out (last_frame_alive p)
       ++ ", producing " ++ stream_out (total_ship_count p) ++ " ships"
       ++ " and dealing " ++ stream_out (damage_dealt p) ++ " damage"
       ++ "!" ++ endl)%string.
Proof.
  intros R Hok Hdir game replay stats. split.
  - apply (main_valid env cl t networking names R Hok Hdir).
  - intros p. unfold player_summary, shl.
    now rewrite !append_assoc.
Qed.

Lemma final_statistics_report_witness :
  let env := sample_environment [] in
  let cl := two_bots false in
  let networking := mkNetworking ["./a"; "./b"]%string in
  let game := created_game env cl networking in
  let replay := negb (noReplaySwitch cl) in
  let stats :=
    run_game env game None (game_seed game) (game_id env) replay
             (replay_directory cl) in
  main env cl
  = ([Stdout (EmptyString << "Game constants: all default"%string << endl);
      LaunchBot "./a"; LaunchBot "./b"]
       ++ [CreateGame game;
           RunGame None (game_seed game) (game_id env) replay
                   (replay_directory cl)]
       ++ (if quietSwitch cl
           then [Stdout (statistics_out env stats)]
           else map (fun p => Stdout (player_summary env game p))
                    (player_statistics stats)),
     Exit 0) /\
  forall p : PlayerStatistics,
    player_summary env game p
    = ("Player #" ++ stream_out (tag p) ++ ", " ++ get_name env game (tag p)
       ++ ", came in rank #" ++ stream_out (rank p)
       ++ " and was last alive on frame #" ++ stream_out (last_frame_alive p)
       ++ ", producing " ++ stream_out (total_ship_count p) ++ " ships"
       ++ " and dealing " ++ stream_out (damage_dealt p) ++ " damage"
       ++ "!" ++ endl)%string.
Proof.
  intros env cl networking.
  apply (final_statistics_report env cl
           [Stdout (EmptyString << "Game constants: all default"%string
                      << endl);
            LaunchBot "./a"; LaunchBot "./b"]
           networking None).
  - reflexivity.
  - unfold InvalidMatchSetup. vm_compute. intros [[_ Hn] | Hr].
    + now apply Hn.
    + apply Hr. split; discriminate.
  - simpl. discriminate.
Defined.

(** The two forms on the sample game: the quiet run ends with the encoded
    statistics, the other run with the two summary lines. *)
Example quiet_run_output :
  fst (main (sample_environment []) (two_bots true))
  = [LaunchBot "./a"; LaunchBot "./b";
     CreateGame (mkHalite 128 128 42 2 (mkNetworking ["./a"; "./b"]%string)
                          false);
     RunGame None 42 1540000000 true "./";
     Stdout "{stats}"].
Proof. reflexivity. Qed.

Example summary_run_output :
  skipn 5 (fst (main (sample_environment []) (two_bots false)))
  = [Stdout ("Player #0, alpha, came in rank #1 and was last alive on frame #120, producing 7 ships and dealing 950 damage!"
             ++ endl);
     Stdout ("Player #1, beta, came in rank #2 and was last alive on frame #80, producing 3 ships and dealing 310 damage!"
             ++ endl)].
Proof. reflexivity. Qed.

(** ** The seed of the map generator *)

Lemma clock_seed_distinct (c1 c2 : Z) :
  0 <= c1 < c2 -> c2 - c1 < 4294967295 ->
  to_unsigned_int (Z.rem c1 4294967295)
  <> to_unsigned_int (Z.rem c2 4294967295).
Proof.
  intros H12 Hclose. unfold to_unsigned_int.
  rewrite !Z.rem_mod_nonneg by lia.
  pose proof (Z.mod_pos_bound c1 4294967295 ltac:(lia)) as B1.
  pose proof (Z.mod_pos_bound c2 4294967295 ltac:(lia)) as B2.
  rewrite !(Z.mod_small _ (2 ^ 32)) by lia.
  intros E.
  pose proof (Z.div_mod c1 4294967295 ltac:(lia)) as D1.
  pose proof (Z.div_mod c2 4294967295 ltac:(lia)) as D2.
  assert (Hq : c2 - c1
               = 4294967295 * (c2 / 4294967295 - c1 / 4294967295)) by lia.
  assert (Hz : c2 / 4294967295 - c1 / 4294967295 <= 0
               \/ 1 <= c2 / 4294967295 - c1 / 4294967295) by lia.
  destruct Hz as [Hz | Hz]; nia.
Qed.

(** C10 (as amended).  When the set-up is valid, the game is created, and
    every game [main] creates gets the seed chosen at lines 124-129.  That
    seed is the value of the seed argument when the value is not 0; for the
    value 0, given or by default, it is the system clock in microseconds
    modulo 4294967295.  So the seed equals the value of the argument exactly
    when the value is not 0 or the clock-derived seed is itself 0.  A run
    with seed 0 is the run without a seed argument, and two runs with seed 0
    at clock readings that differ by less than 4294967295 microseconds get
    different seeds. *)
Theorem seed_argument (env : Environment) (cl : CommandLine)
  (t : list event) (networking : Networking) (names : option (list string)) :
  launch_step env cl = (t, Ok (networking, names)) ->
  ~ InvalidMatchSetup networking (requested_players cl) ->
  let v := getValue 0 (seedArg cl) in
  let clock_seed :=
    to_unsigned_int (Z.rem (system_clock_microseconds env) 4294967295) in
  In (CreateGame (created_game env cl networking)) (fst (main env cl)) /\
  (forall game : Halite,
      In (CreateGame game) (fst (main env cl)) ->
      game_seed game = choose_seed env (seedArg cl)) /\
  (v <> 0 -> choose_seed env (seedArg cl) = v) /\
  (v = 0 -> choose_seed env (seedArg cl) = clock_seed) /\
  (choose_seed env (seedArg cl) = v <-> v <> 0 \/ clock_seed = 0) /\
  main env (with_seedArg cl (Some 0)) = main env (with_seedArg cl None) /\
  (forall c1 c2 : Z,
      0 <= c1 < c2 -> c2 - c1 < 4294967295 ->
      choose_seed (with_system_clock env c1) (Some 0)
      <> choose_seed (with_system_clock env c2) (Some 0)).
Proof.
  intros R Hok v clock_seed.
  assert (Hseed : forall game : Halite,
             In (CreateGame game) (fst (main env cl)) ->
             game_seed game = choose_seed env (seedArg cl)).
  { intros game Hin.
    assert (Hf : In (CreateGame game)
                    (filter is_game_event (fst (main env cl))))
      by (apply filter_In; split; [exact Hin | reflexivity]).
    destruct (main_game_trace env cl)
      as [E | (_ & _ & _ & _ & [[_ E] | [_ E]])];
      rewrite E in Hf; cbn [In] in Hf.
    - contradiction.
    - destruct Hf as [Hg | []]. injection Hg as <-. reflexivity.
    - destruct Hf as [Hg | [Hg | []]]; [| discriminate Hg].
      injection Hg as <-. reflexivity. }
  assert (Hchoice : (v <> 0 -> choose_seed env (seedArg cl) = v) /\
                    (v = 0 -> choose_seed env (seedArg cl) = clock_seed)).
  { unfold choose_seed. fold v clock_seed.
    destruct (Z.eqb_spec v 0) as [E | E]; cbn [negb]; split; intros Hv;
      congruence. }
  split; [| split; [exact Hseed | split; [apply Hchoice |
                                          split; [apply Hchoice | split]]]].
  - destruct (string_dec (getValue "."%string (replayDirectoryArg cl))
                EmptyString) as [Hdir | Hdir].
    + rewrite (main_valid_undefined env cl _ _ _ R Hok Hdir). cbn [fst].
      apply in_or_app. right. now left.
    + rewrite (main_valid env cl _ _ _ R Hok Hdir). cbn [fst].
      apply in_or_app. right. now left.
  - destruct Hchoice as [Hnz Hz].
    destruct (Z.eq_dec v 0) as [E | E].
    + rewrite (Hz E), E. split; [now right | intros [Hv | Hc]; congruence].
    + rewrite (Hnz E). split; [now left | reflexivity].
  - split; [reflexivity |].
    intros c1 c2 H12 Hclose. unfold choose_seed. cbn.
    now apply clock_seed_distinct.
Qed.

Lemma seed_argument_witness :
  let env := sample_environment [] in
  let cl := two_bots true in
  let networking := mkNetworking ["./a"; "./b"]%string in
  let v := getValue 0 (seedArg cl) in
  let clock_seed :=
    to_unsigned_int (Z.rem (system_clock_microseconds env) 4294967295) in
  In (CreateGame (created_game env cl networking)) (fst (main env cl)) /\
  (forall game : Halite,
      In (CreateGame game) (fst (main env cl)) ->
      game_seed game = choose_seed env (seedArg cl)) /\
  (v <> 0 -> choose_seed env (seedArg cl) = v) /\
  (v = 0 -> choose_seed env (seedArg cl) = clock_seed) /\
  (choose_seed env (seedArg cl) = v <-> v <> 0 \/ clock_seed = 0) /\
  main env (with_seedArg cl (Some 0)) = main env (with_seedArg cl None) /\
  (forall c1 c2 : Z,
      0 <= c1 < c2 -> c2 - c1 < 4294967295 ->
      choose_seed (with_system_clock env c1) (Some 0)
      <> choose_seed (with_system_clock env c2) (Some 0)).
Proof.
  intros env cl networking.
  apply (seed_argument env cl
           [LaunchBot "./a"; LaunchBot "./b"] networking None).
  - reflexivity.
  - unfold InvalidMatchSetup. vm_compute. intros [[_ Hn] | Hr].
    + now apply Hn.
    + apply Hr. split; discriminate.
Defined.

(** C10 as stated fails: at a clock reading that is a multiple of 4294967295
    microseconds a run with seed 0 creates the game with seed 0, the value of
    the argument, although that value is 0. *)
Lemma seed_zero_equals_argument :
  getValue 0 (seedArg two_bots_seed_zero) = 0 /\
  fst (main environment_at_multiple two_bots_seed_zero)
  = [LaunchBot "./a"; LaunchBot "./b";
     CreateGame (mkHalite 128 128 0 2 (mkNetworking ["./a"; "./b"]%string)
                          false);
     RunGame None 0 1540000000 true "./";
     Stdout "{stats}"] /\
  ~ (choose_seed environment_at_multiple (seedArg two_bots_seed_zero)
     = getValue 0 (seedArg two_bots_seed_zero)
     <-> getValue 0 (seedArg two_bots_seed_zero) <> 0).
Proof.
  split; [reflexivity | split; [reflexivity |]].
  intros [Hto _]. now apply (Hto eq_refl).
Qed.

(** At a clock reading that is a multiple of 4294967295 microseconds the seed
    derived from the clock is 0, the value of the absent argument. *)
Example clock_seed_zero :
  choose_seed (with_system_clock (sample_environment []) (4294967295 * 358565))
              None = 0.
Proof. reflexivity. Qed.

(* ================================================================== *)
(** * Further properties of the map geometry *)
(* ================================================================== *)

Lemma pair_eq (a b c d : Z) : (a, b) = (c, d) <-> a = c /\ b = d.
Proof. apply pair_equal_spec. Qed.

Lemma pair_neq (a b c d : Z) : (a, b) <> (c, d) <-> a <> c \/ b <> d.
Proof.
  rewrite pair_equal_spec. lia.
Qed.

Lemma NoDup_four {A : Type} (a b c d : A) :
  NoDup [a; b; c; d]
  <-> a <> b /\ a <> c /\ a <> d /\ b <> c /\ b <> d /\ c <> d.
Proof.
  rewrite !NoDup_cons_iff. cbn [In]. intuition (auto using NoDup_nil).
Qed.

(** One axis of the triangle inequality on a ring of [W] cells. *)
Lemma ring_triangle (a b W : Z) :
  Z.abs a <= W -> Z.abs b <= W ->
  Z.min (Z.abs (a + b)) (W - Z.abs (a + b))
  <= Z.min (Z.abs a) (W - Z.abs a) + Z.min (Z.abs b) (W - Z.abs b).
Proof. lia. Qed.

Lemma mod_wrap_once (a W : Z) :
  0 <= a < 2 * W -> Z.rem a W = if a <? W then a else a - W.
Proof.
  intros Ha. destruct (Z.ltb_spec a W) as [Hlt | Hge].
  - apply Z.rem_small. lia.
  - rewrite Z.rem_mod_nonneg by lia.
    replace a with (a - W + 1 * W) at 1 by ring.
    rewrite Z.mod_add by lia. apply Z.mod_small. lia.
Qed.

Section MapGeometryFurther.
Context {Cell : Type}.
Variable m : Map Cell.
Hypothesis width_pos : 0 < width m.
Hypothesis height_pos : 0 < height m.

Lemma move_location_stays (L : Location) (d : Direction) :
  in_bounds m L -> in_bounds m (move_location m L d).
Proof.
  intros [Hx Hy]. destruct L as [x y]; cbn [fst snd] in *.
  destruct d; unfold in_bounds; wrap_steps; cbn [fst snd]; lia.
Qed.

Lemma move_location_undo (L : Location) (d : Direction) :
  in_bounds m L -> move_location m (move_location m L d) (opposite d) = L.
Proof.
  intros [Hx Hy]. destruct L as [x y]; cbn [fst snd] in *.
  destruct d; unfold move_location, opposite; cbn [fst snd]; f_equal;
    auto using wrap_succ_pred, wrap_pred_succ.
Qed.

Lemma opposite_involutive (d : Direction) : opposite (opposite d) = d.
Proof. now destruct d. Qed.

Lemma In_neighbors_move (L n : Location) :
  In n (get_neighbors m L) <-> exists d, n = move_location m L d.
Proof.
  rewrite get_neighbors_moves. cbn [map In]. split.
  - intros [E | [E | [E | [E | []]]]]; eauto.
  - intros [[] ->]; auto.
Qed.

End MapGeometryFurther.

(** X1.  Every neighbor of an in-bounds location is in bounds. *)
Theorem get_neighbors_in_bounds {Cell : Type} (m : Map Cell) (L : Location) :
  0 < width m -> 0 < height m -> in_bounds m L ->
  Forall (in_bounds m) (get_neighbors m L).
Proof.
  intros HW HH HL. apply Forall_forall. intros n Hn.
  apply In_neighbors_move in Hn. destruct Hn as [d ->].
  now apply move_location_stays.
Qed.

Lemma get_neighbors_in_bounds_witness :
  let m := mkMap 4 3 [[tt; tt; tt; tt]; [tt; tt; tt; tt]; [tt; tt; tt; tt]] in
  Forall (in_bounds m) (get_neighbors m (3, 0)).
Proof.
  intros m. apply (get_neighbors_in_bounds m (3, 0)).
  - reflexivity.
  - reflexivity.
  - unfold in_bounds; simpl; lia.
Defined.

(** X2.  Being a neighbor is symmetric: a location is a neighbor of each of
    its neighbors. *)
Theorem get_neighbors_symmetric {Cell : Type} (m : Map Cell)
  (L n : Location) :
  0 < width m -> 0 < height m -> in_bounds m L ->
  In n (get_neighbors m L) -> In L (get_neighbors m n).
Proof.
  intros HW HH HL Hn. apply In_neighbors_move in Hn. destruct Hn as [d ->].
  apply In_neighbors_move. exists (opposite d).
  symmetry. now apply move_location_undo.
Qed.

Lemma get_neighbors_symmetric_witness :
  let m := mkMap 4 3 [[tt; tt; tt; tt]; [tt; tt; tt; tt]; [tt; tt; tt; tt]] in
  In (3, 0) (get_neighbors m (0, 0)).
Proof.
  intros m. apply (get_neighbors_symmetric m (3, 0) (0, 0)).
  - reflexivity.
  - reflexivity.
  - unfold in_bounds; simpl; lia.
  - simpl. auto.
Defined.

(** X3.  The four neighbors of an in-bounds location are pairwise distinct
    exactly when the map is at least 3 cells wide and 3 cells high. *)
Theorem get_neighbors_NoDup {Cell : Type} (m : Map Cell) (L : Location) :
  0 < width m -> 0 < height m -> in_bounds m L ->
  NoDup (get_neighbors m L) <-> 3 <= width m /\ 3 <= height m.
Proof.
  intros HW HH [Hx Hy]. destruct L as [x y]; cbn [fst snd] in *.
  unfold get_neighbors; cbn [fst snd].
  rewrite NoDup_four, !pair_neq.
  rewrite (rem_succ_wrap x), (rem_pred_wrap x), (rem_succ_wrap y),
    (rem_pred_wrap y) by lia.
  destruct (Z.eqb_spec (x + 1) (width m)); destruct (Z.eqb_spec x 0);
    destruct (Z.eqb_spec (y + 1) (height m)); destruct (Z.eqb_spec y 0); lia.
Qed.

Lemma get_neighbors_NoDup_witness :
  let m := mkMap 4 3 [[tt; tt; tt; tt]; [tt; tt; tt; tt]; [tt; tt; tt; tt]] in
  NoDup (get_neighbors m (3, 0)) <-> 3 <= width m /\ 3 <= height m.
Proof.
  intros m. apply (get_neighbors_NoDup m (3, 0)).
  - reflexivity.
  - reflexivity.
  - unfold in_bounds; simpl; lia.
Defined.

(** X4.  On a map at least 2 cells wide and 2 cells high, the neighbors of an
    in-bounds location are exactly the in-bounds locations at distance 1
    from it. *)
Theorem get_neighbors_distance_one {Cell : Type} (m : Map Cell)
  (A B : Location) :
  2 <= width m -> 2 <= height m -> in_bounds m A ->
  In B (get_neighbors m A) <-> in_bounds m B /\ distance m A B = 1.
Proof.
  intros HW HH [Hx Hy]. destruct A as [x y], B as [bx b_y].
  unfold get_neighbors, in_bounds, distance; cbn [fst snd In].
  rewrite !pair_eq.
  rewrite (rem_succ_wrap x), (rem_pred_wrap x), (rem_succ_wrap y),
    (rem_pred_wrap y) by (cbn [fst snd] in *; lia).
  cbn [fst snd] in *.
  destruct (Z.eqb_spec (x + 1) (width m)); destruct (Z.eqb_spec x 0);
    destruct (Z.eqb_spec (y + 1) (height m)); destruct (Z.eqb_spec y 0); lia.
Qed.

Lemma get_neighbors_distance_one_witness :
  let m := mkMap 4 3 [[tt; tt; tt; tt]; [tt; tt; tt; tt]; [tt; tt; tt; tt]] in
  In (0, 2) (get_neighbors m (0, 0))
  <-> in_bounds m (0, 2) /\ distance m (0, 0) (0, 2) = 1.
Proof.
  intros m. apply (get_neighbors_distance_one m (0, 0) (0, 2)).
  - simpl; lia.
  - simpl; lia.
  - unfold in_bounds; simpl; lia.
Defined.

(** X5.  Between in-bounds locations the distance is never negative, and it
    is 0 only from a location to itself. *)
Theorem distance_zero_iff {Cell : Type} (m : Map Cell) (A B : Location) :
  in_bounds m A -> in_bounds m B ->
  0 <= distance m A B /\ (distance m A B = 0 <-> A = B).
Proof.
  intros [Hx Hy] [Hbx Hby]. destruct A as [x y], B as [bx b_y].
  unfold distance; cbn [fst snd] in *. rewrite pair_eq. lia.
Qed.

Lemma distance_zero_iff_witness :
  let m := mkMap 4 3 [[tt; tt; tt; tt]; [tt; tt; tt; tt]; [tt; tt; tt; tt]] in
  0 <= distance m (3, 0) (0, 2)
  /\ (distance m (3, 0) (0, 2) = 0 <-> (3, 0) = (0, 2)).
Proof.
  intros m. apply (distance_zero_iff m (3, 0) (0, 2)).
  - unfold in_bounds; simpl; lia.
  - unfold in_bounds; simpl; lia.
Defined.

(** X6.  The distance satisfies the triangle inequality on in-bounds
    locations. *)
Theorem distance_triangle {Cell : Type} (m : Map Cell) (A B C : Location) :
  in_bounds m A -> in_bounds m B -> in_bounds m C ->
  distance m A C <= distance m A B + distance m B C.
Proof.
  intros [Hx Hy] [Hbx Hby] [Hcx Hcy]. unfold distance.
  pose proof (ring_triangle (fst A - fst B) (fst B - fst C) (width m)
                ltac:(lia) ltac:(lia)) as TX.
  pose proof (ring_triangle (snd A - snd B) (snd B - snd C) (height m)
                ltac:(lia) ltac:(lia)) as TY.
  replace (fst A - fst B + (fst B - fst C)) with (fst A - fst C) in TX by ring.
  replace (snd A - snd B + (snd B - snd C)) with (snd A - snd C) in TY by ring.
  lia.
Qed.

Lemma distance_triangle_witness :
  let m := mkMap 10 8 (repeat (repeat tt 10) 8) in
  distance m (1, 7) (9, 2) <= distance m (1, 7) (5, 5) + distance m (5, 5) (9, 2).
Proof.
  intros m. apply (distance_triangle m (1, 7) (5, 5) (9, 2)).
  - unfold in_bounds; simpl; lia.
  - unfold in_bounds; simpl; lia.
  - unfold in_bounds; simpl; lia.
Defined.

(** X7.  One move changes the distance to any in-bounds location by at most
    1. *)
Theorem move_location_distance_step {Cell : Type} (m : Map Cell)
  (A B : Location) (d : Direction) :
  0 < width m -> 0 < height m -> in_bounds m A -> in_bounds m B ->
  Z.abs (distance m (move_location m A d) B - distance m A B) <= 1.
Proof.
  intros HW HH [Hx Hy] [Hbx Hby]. destruct A as [x y], B as [bx b_y].
  cbn [fst snd] in *.
  destruct d; unfold move_location, distance; cbn [fst snd];
    rewrite ?(rem_succ_wrap x), ?(rem_pred_wrap' x), ?(rem_succ_wrap y),
      ?(rem_pred_wrap' y) by lia;
    repeat match goal with
           | |- context [?a =? ?b] => destruct (Z.eqb_spec a b)
           end; lia.
Qed.

Lemma move_location_distance_step_witness :
  let m := mkMap 10 8 (repeat (repeat tt 10) 8) in
  Z.abs (distance m (move_location m (9, 2) East) (5, 5)
         - distance m (9, 2) (5, 5)) <= 1.
Proof.
  intros m. apply (move_location_distance_step m (9, 2) (5, 5) East).
  - reflexivity.
  - reflexivity.
  - unfold in_bounds; simpl; lia.
  - unfold in_bounds; simpl; lia.
Defined.

(** X8.  The bound of the distance is reached: the location half the map away
    along both axes is in bounds and at distance floor(W/2) + floor(H/2). *)
Theorem distance_antipode {Cell : Type} (m : Map Cell) (A : Location) :
  0 < width m -> 0 < height m -> in_bounds m A ->
  in_bounds m (antipode m A) /\
  distance m A (antipode m A) = width m / 2 + height m / 2.
Proof.
  intros HW HH [Hx Hy]. destruct A as [x y]; cbn [fst snd] in *.
  pose proof (Z.div_mod (width m) 2 ltac:(lia)) as EW.
  pose proof (Z.mod_pos_bound (width m) 2 ltac:(lia)) as BW.
  pose proof (Z.div_mod (height m) 2 ltac:(lia)) as EH.
  pose proof (Z.mod_pos_bound (height m) 2 ltac:(lia)) as BH.
  unfold antipode, in_bounds, distance; cbn [fst snd].
  rewrite (mod_wrap_once (x + width m / 2)),
    (mod_wrap_once (y + height m / 2)) by lia.
  destruct (Z.ltb_spec (x + width m / 2) (width m));
    destruct (Z.ltb_spec (y + height m / 2) (height m)); lia.
Qed.

Lemma distance_antipode_witness :
  let m := mkMap 10 8 (repeat (repeat tt 10) 8) in
  in_bounds m (antipode m (7, 1)) /\
  distance m (7, 1) (antipode m (7, 1)) = 10 / 2 + 8 / 2.
Proof.
  intros m. apply (distance_antipode m (7, 1)).
  - reflexivity.
  - reflexivity.
  - unfold in_bounds; simpl; lia.
Defined.

Lemma wrap_succ_mod (a W : Z) :
  0 < W -> Z.rem (a mod W + 1) W = (a + 1) mod W.
Proof.
  intros HW. pose proof (Z.mod_pos_bound a W HW).
  rewrite Z.rem_mod_nonneg by lia. apply Zplus_mod_idemp_l.
Qed.

Lemma wrap_pred_mod (a W : Z) :
  0 < W -> Z.rem (a mod W + W - 1) W = (a - 1) mod W.
Proof.
  intros HW. pose proof (Z.mod_pos_bound a W HW).
  rewrite Z.rem_mod_nonneg by lia.
  replace (a mod W + W - 1) with (a mod W + (W - 1)) by ring.
  rewrite Zplus_mod_idemp_l.
  replace (a + (W - 1)) with (a - 1 + 1 * W) by ring.
  apply Z.mod_add. lia.
Qed.

Lemma move_repeatedly_0 {Cell : Type} (m : Map Cell) (d : Direction)
  (L : Location) : move_repeatedly m d 0 L = L.
Proof. reflexivity. Qed.

Lemma move_repeatedly_S {Cell : Type} (m : Map Cell) (d : Direction)
  (k : nat) (L : Location) :
  move_repeatedly m d (S k) L = move_location m (move_repeatedly m d k L) d.
Proof. reflexivity. Qed.

(** X9.  Moving [k] times in one direction adds or subtracts [k] modulo the
    dimension on one coordinate; moving as many times as the map is long
    along that axis brings an in-bounds location back to itself. *)
Theorem move_repeatedly_lap {Cell : Type} (m : Map Cell) (L : Location)
  (d : Direction) (k : nat) :
  0 < width m -> 0 < height m -> in_bounds m L ->
  move_repeatedly m d k L
  = match d with
    | North => (fst L, (snd L - Z.of_nat k) mod height m)
    | South => (fst L, (snd L + Z.of_nat k) mod height m)
    | East => ((fst L + Z.of_nat k) mod width m, snd L)
    | West => ((fst L - Z.of_nat k) mod width m, snd L)
    end
  /\ move_repeatedly m d (Z.to_nat (axis m d)) L = L.
Proof.
  intros HW HH [Hx Hy]. destruct L as [x y]; cbn [fst snd] in *.
  assert (Hk : forall j : nat,
             move_repeatedly m d j (x, y)
             = match d with
               | North => (x, (y - Z.of_nat j) mod height m)
               | South => (x, (y + Z.of_nat j) mod height m)
               | East => ((x + Z.of_nat j) mod width m, y)
               | West => ((x - Z.of_nat j) mod width m, y)
               end).
  { induction j as [| j IH].
    - rewrite move_repeatedly_0. cbn [Z.of_nat].
      destruct d; rewrite ?Z.add_0_r, ?Z.sub_0_r, Z.mod_small by lia;
        reflexivity.
    - rewrite move_repeatedly_S, IH, Nat2Z.inj_succ.
      destruct d; unfold move_location; cbn [fst snd]; f_equal.
      + rewrite wrap_pred_mod by lia. f_equal. lia.
      + rewrite wrap_succ_mod by lia. f_equal. lia.
      + rewrite wrap_succ_mod by lia. f_equal. lia.
      + rewrite wrap_pred_mod by lia. f_equal. lia. }
  split; [apply Hk |].
  rewrite Hk. destruct d; cbn [axis]; rewrite Z2Nat.id by lia; f_equal.
  - replace (y - height m) with (y + (-1) * height m) by ring.
    rewrite Z.mod_add by lia. apply Z.mod_small. lia.
  - replace (y + height m) with (y + 1 * height m) by ring.
    rewrite Z.mod_add by lia. apply Z.mod_small. lia.
  - replace (x + width m) with (x + 1 * width m) by ring.
    rewrite Z.mod_add by lia. apply Z.mod_small. lia.
  - replace (x - width m) with (x + (-1) * width m) by ring.
    rewrite Z.mod_add by lia. apply Z.mod_small. lia.
Qed.

Lemma move_repeatedly_lap_witness :
  let m := mkMap 4 3 [[tt; tt; tt; tt]; [tt; tt; tt; tt]; [tt; tt; tt; tt]] in
  move_repeatedly m West 6 (1, 2) = ((1 - Z.of_nat 6) mod 4, 2)
  /\ move_repeatedly m West (Z.to_nat (axis m West)) (1, 2) = (1, 2).
Proof.
  intros m. apply (move_repeatedly_lap m (1, 2) West 6).
  - reflexivity.
  - reflexivity.
  - unfold in_bounds; simpl; lia.
Defined.

(** X10.  Moves commute: two moves of an in-bounds location give the same
    location in either order. *)
Theorem move_location_commute {Cell : Type} (m : Map Cell) (L : Location)
  (d1 d2 : Direction) :
  0 < width m -> 0 < height m -> in_bounds m L ->
  move_location m (move_location m L d1) d2
  = move_location m (move_location m L d2) d1.
Proof.
  intros HW HH [Hx Hy]. destruct L as [x y]; cbn [fst snd] in *.
  destruct d1, d2; unfold move_location; cbn [fst snd]; try reflexivity;
    f_equal; rewrite ?wrap_succ_pred, ?wrap_pred_succ by lia; reflexivity.
Qed.

Lemma move_location_commute_witness :
  let m := mkMap 4 3 [[tt; tt; tt; tt]; [tt; tt; tt; tt]; [tt; tt; tt; tt]] in
  move_location m (move_location m (3, 0) East) West
  = move_location m (move_location m (3, 0) West) East.
Proof.
  intros m. apply (move_location_commute m (3, 0) East West).
  - reflexivity.
  - reflexivity.
  - unfold in_bounds; simpl; lia.
Defined.

(** ** Further properties of the bot serial format *)

(** X11.  The serial format does not show where a row of the grid ends: two
    maps with the same width and height whose rows concatenate to the same
    cells are written as the same text; and a map without cells is written
    as its dimension line alone. *)
Theorem write_map_rows_hidden {Cell : Type} `{Streamable Cell}
  (os : ostream) (m1 m2 : Map Cell) :
  width m1 = width m2 -> height m1 = height m2 ->
  List.concat (grid m1) = List.concat (grid m2) ->
  write_map os m1 = write_map os m2
  /\ (List.concat (grid m1) = [] ->
      write_map os m1
      = (os ++ stream_out (width m1) ++ " " ++ stream_out (height m1)
         ++ endl)%string).
Proof.
  intros EW EH EG. unfold write_map, shl.
  rewrite !write_grid_dense, EW, EH, EG. split; [reflexivity |].
  intros Hnil. rewrite Hnil. cbn [dense_run].
  now rewrite append_empty_r, !append_assoc.
Qed.

Lemma write_map_rows_hidden_witness :
  write_map EmptyString (mkMap 2 2 [[1; 2]; [3; 4]])
  = write_map EmptyString (mkMap 2 2 [[1; 2; 3]; [4]])
  /\ (List.concat (grid (mkMap 2 2 [[1; 2]; [3; 4]])) = [] ->
      write_map EmptyString (mkMap 2 2 [[1; 2]; [3; 4]])
      = (EmptyString ++ stream_out 2 ++ " " ++ stream_out 2 ++ endl)%string).
Proof.
  apply (write_map_rows_hidden EmptyString (mkMap 2 2 [[1; 2]; [3; 4]])
           (mkMap 2 2 [[1; 2; 3]; [4]])).
  - reflexivity.
  - reflexivity.
  - reflexivity.
Defined.

(* ================================================================== *)
(** * Further properties of [main] *)
(* ================================================================== *)

Lemma stdout_of_app (t1 t2 : list event) :
  stdout_of (t1 ++ t2) = stdout_of t1 ++ stdout_of t2.
Proof. apply flat_map_app. Qed.

Lemma stdout_of_LaunchBot (commands : list string) :
  stdout_of (map LaunchBot commands) = [].
Proof. induction commands as [| c commands IH]; cbn; auto. Qed.


(** ** How a run ends *)


(** ** The order of the launches *)

(** X13.  In every run the bots launched are the first [k] start commands,
    for some [k], in their order on the command line, so a name is never
    launched.  Once the launch loop is reached, nothing is launched after a
    failure: when the launch at index [k] is the first that fails, exactly
    the commands up to and including it are launched and [main] exits with
    status 1; when no launch fails, every start command is launched. *)
Theorem main_launches_prefix (env : Environment) (cl : CommandLine)
  (t0 : list event) :
  constants_step env cl = (t0, Ok tt) ->
  (if overrideSwitch cl
   then (4 <= List.length (otherArgs cl))%nat
        /\ Nat.Even (List.length (otherArgs cl))
   else otherArgs cl <> []) ->
  let commands := start_commands (overrideSwitch cl) (otherArgs cl) in
  (exists k : nat, launches (fst (main env cl)) = firstn k commands) /\
  (forall k : nat,
      fails_first_at env (mkNetworking []) commands k ->
      launches (fst (main env cl)) = firstn (S k) commands /\
      snd (main env cl) = Exit 1) /\
  (never_fails env (mkNetworking []) commands ->
   launches (fst (main env cl)) = commands).
Proof.
  intros R0 Hcount commands.
  destruct (constants_step_quiet env cl) as [L0 _]. rewrite R0 in L0.
  cbn [fst] in L0.
  destruct (main_first_failure env cl t0 R0 Hcount) as (Hex & Hok & Hfail).
  fold commands in Hex, Hok, Hfail.
  assert (Hk : forall k : nat,
             fails_first_at env (mkNetworking []) commands k ->
             launches (fst (main env cl)) = firstn (S k) commands /\
             snd (main env cl) = Exit 1).
  { intros k Hk. rewrite (Hfail k Hk). cbn [fst snd].
    rewrite !launches_app, L0, launches_LaunchBot. cbn.
    now rewrite app_nil_r. }
  assert (Hall : never_fails env (mkNetworking []) commands ->
                 launches (fst (main env cl)) = commands).
  { intros Hnever. specialize (Hok Hnever).
    destruct (InvalidMatchSetup_dec (mkNetworking commands)
                (requested_players cl)) as [Hbad | Hvalid].
    - destruct (main_invalid env cl _ _ _ Hok Hbad) as [M | M];
        rewrite M; cbn [fst];
        rewrite !launches_app, L0, launches_LaunchBot; cbn;
        now rewrite app_nil_r.
    - destruct (string_dec (getValue "."%string (replayDirectoryArg cl))
                  EmptyString) as [Hdir | Hdir].
      + rewrite (main_valid_undefined env cl _ _ _ Hok Hvalid Hdir).
        cbn [fst]. rewrite !launches_app, L0, launches_LaunchBot. cbn.
        now rewrite app_nil_r.
      + rewrite (main_valid env cl _ _ _ Hok Hvalid Hdir). cbn [fst].
        rewrite !launches_app, L0, launches_LaunchBot.
        match goal with
        | |- context [final_report ?e ?q ?g ?st] =>
            destruct (final_report_quiet e q g st) as [-> _]
        end.
        cbn. now rewrite app_nil_r. }
  split; [| split; [exact Hk | exact Hall]].
  destruct Hex as [Hnever | [k Hfirst]].
  - exists (List.length commands). now rewrite firstn_all, (Hall Hnever).
  - exists (S k). apply (Hk k Hfirst).
Qed.

Lemma main_launches_prefix_witness :
  let env := sample_environment ["./b"%string] in
  let commands := ["./a"; "./b"; "./c"]%string in
  (exists k : nat, launches (fst (main env three_pairs)) = firstn k commands) /\
  (forall k : nat,
      fails_first_at env (mkNetworking []) commands k ->
      launches (fst (main env three_pairs)) = firstn (S k) commands /\
      snd (main env three_pairs) = Exit 1) /\
  (never_fails env (mkNetworking []) commands ->
   launches (fst (main env three_pairs)) = commands).
Proof.
  intros env.
  apply (main_launches_prefix env three_pairs []).
  - reflexivity.
  - simpl. split; [lia | exists 3%nat; reflexivity].
Defined.

(** ** Default mode *)

(** X14.  In default mode, once the constants step is over: without trailing
    arguments [main] asks for a launch command and exits with status 1; with
    trailing arguments each one is a start command, and either no launch
    fails or there is a first launch that fails.  If no launch fails, all
    are launched in order and no names are collected.  If the launch at
    index [k] is the first that fails, exactly the commands up to and
    including it have been launched and [main] reports the failure and exits
    with status 1. *)
Theorem default_mode_launch (env : Environment) (cl : CommandLine)
  (t0 : list event) :
  overrideSwitch cl = false ->
  constants_step env cl = (t0, Ok tt) ->
  (otherArgs cl = [] ->
   main env cl = (t0 ++ [Stdout no_bot_message], Exit 1)) /\
  (otherArgs cl <> [] ->
   (never_fails env (mkNetworking []) (otherArgs cl) \/
    exists k : nat, fails_first_at env (mkNetworking []) (otherArgs cl) k) /\
   (never_fails env (mkNetworking []) (otherArgs cl) ->
    launch_step env cl
    = (t0 ++ map LaunchBot (otherArgs cl),
       Ok (mkNetworking (otherArgs cl), None))) /\
   (forall k : nat,
       fails_first_at env (mkNetworking []) (otherArgs cl) k ->
       main env cl
       = (t0 ++ map LaunchBot (firstn (S k) (otherArgs cl))
            ++ [Stdout launch_failed_message],
          Exit 1))).
Proof.
  intros Hov R0. split.
  - intros Hnil.
    assert (Hstep : launch_step env cl
                    = bind (t0, Ok tt)
                        (fun _ => launch_bots env false (otherArgs cl)
                                    (mkNetworking []))).
    { unfold launch_step. now rewrite R0, Hov. }
    rewrite bind_ok, Hnil in Hstep. now apply main_exit.
  - intros Hne.
    assert (Hcount : if overrideSwitch cl
                     then (4 <= List.length (otherArgs cl))%nat
                          /\ Nat.Even (List.length (otherArgs cl))
                     else otherArgs cl <> [])
      by (now rewrite Hov).
    pose proof (main_first_failure env cl t0 R0 Hcount) as Hrun.
    rewrite Hov in Hrun. exact Hrun.
Qed.

Lemma default_mode_launch_witness :
  let env := sample_environment ["./b"%string] in
  let cl := two_bots true in
  (otherArgs cl = [] ->
   main env cl = ([] ++ [Stdout no_bot_message], Exit 1)) /\
  (otherArgs cl <> [] ->
   (never_fails env (mkNetworking []) (otherArgs cl) \/
    exists k : nat, fails_first_at env (mkNetworking []) (otherArgs cl) k) /\
   (never_fails env (mkNetworking []) (otherArgs cl) ->
    launch_step env cl
    = ([] ++ map LaunchBot (otherArgs cl),
       Ok (mkNetworking (otherArgs cl), None))) /\
   (forall k : nat,
       fails_first_at env (mkNetworking []) (otherArgs cl) k ->
       main env cl
       = ([] ++ map LaunchBot (firstn (S k) (otherArgs cl))
            ++ [Stdout launch_failed_message],
          Exit 1))).
Proof.
  intros env cl.
  apply (default_mode_launch env cl []).
  - reflexivity.
  - reflexivity.
Defined.

(** In the run of the witness the second launch is the first that fails, and
    [main] exits right after it. *)
Example default_second_launch_fails :
  fails_first_at (sample_environment ["./b"%string]) (mkNetworking [])
                 (otherArgs (two_bots true)) 1
  /\ main (sample_environment ["./b"%string]) (two_bots true)
     = ([LaunchBot "./a"; LaunchBot "./b"; Stdout launch_failed_message],
        Exit 1).
Proof.
  split; [| reflexivity].
  split; [split; [cbn; lia | reflexivity] |].
  intros j Hj. assert (j = 0%nat) as -> by lia. reflexivity.
Qed.

(** ** The replay directory *)

(** X15.  On a directory that is not empty, the step of lines 271-276 gives
    a directory that ends with the separator: the directory itself when it
    ends with the separator already, and the directory followed by the
    separator otherwise; applying the step to the result changes nothing.
    On the empty directory the step is undefined. *)
Theorem with_separator_ends (s : string) :
  (s = EmptyString -> with_separator s = ([], Undefined)) /\
  (s <> EmptyString ->
   exists s' : string,
     with_separator s = ([], Ok s') /\
     back s' = Some "/"%char /\
     (back s = Some "/"%char -> s' = s) /\
     (back s <> Some "/"%char -> s' = (s ++ "/")%string) /\
     with_separator s' = ([], Ok s')).
Proof.
  split; [intros ->; reflexivity |].
  intros Hs. exists (separated s).
  pose proof (back_separated s Hs) as Hback.
  split; [now apply with_separator_run |]. split; [exact Hback |].
  destruct (back_defined s Hs) as [c E].
  split; [| split].
  - intros E'. unfold separated. rewrite E'. reflexivity.
  - intros Hne. unfold separated. rewrite E.
    destruct (Ascii.eqb_spec c "/"%char) as [-> | _]; [contradiction | reflexivity].
  - unfold with_separator. rewrite Hback. reflexivity.
Qed.

Lemma with_separator_ends_witness :
  ("replays"%string = EmptyString ->
   with_separator "replays" = ([], Undefined)) /\
  ("replays"%string <> EmptyString ->
   exists s' : string,
     with_separator "replays" = ([], Ok s') /\
     back s' = Some "/"%char /\
     (back "replays" = Some "/"%char -> s' = "replays"%string) /\
     (back "replays" <> Some "/"%char -> s' = ("replays" ++ "/")%string) /\
     with_separator s' = ([], Ok s')).
Proof.
  apply (with_separator_ends "replays").
Defined.

(** ** The game that is created and run *)

(** X16.  Whenever [main] creates a game, every start command has been
    launched and there is at least one; the game is made for 1 to 6 players.
    With one bot launched that number is the value of [-n] (1 when absent)
    reduced modulo 2^16; with several bots launched it is the number of bots
    reduced modulo 2^16, and the value of [-n] is 1 modulo 2^16. *)
Theorem created_game_players (env : Environment) (cl : CommandLine)
  (game : Halite) :
  In (CreateGame game) (fst (main env cl)) ->
  let commands := start_commands (overrideSwitch cl) (otherArgs cl) in
  1 <= game_players game <= 6 /\
  launched (game_networking game) = commands /\
  launches (fst (main env cl)) = commands /\
  commands <> [] /\
  (List.length commands = 1%nat ->
   game_players game = getValue 1 (nPlayersArg cl) mod 2 ^ 16) /\
  ((1 < List.length commands)%nat ->
   getValue 1 (nPlayersArg cl) mod 2 ^ 16 = 1 /\
   game_players game = Z.of_nat (List.length commands) mod 2 ^ 16).
Proof.
  intros Hin commands.
  assert (Hf : In (CreateGame game)
                  (filter is_game_event (fst (main env cl))))
    by (apply filter_In; split; [exact Hin | reflexivity]).
  assert (Hgame : game = created_game env cl (mkNetworking commands) /\
                  commands <> [] /\
                  ~ InvalidMatchSetup (mkNetworking commands)
                      (requested_players cl) /\
                  launches (fst (main env cl)) = commands).
  { destruct (main_game_trace env cl)
      as [E | (Hne & _ & Hok & HL & [[_ E] | [_ E]])];
      rewrite E in Hf; cbn [In] in Hf.
    - contradiction.
    - destruct Hf as [Hg | []]. injection Hg as <-. auto.
    - destruct Hf as [Hg | [Hg | []]]; [| discriminate Hg].
      injection Hg as <-. auto. }
  destruct Hgame as (-> & Hne & Hok & HL).
  subst commands.
  set (commands := start_commands (overrideSwitch cl) (otherArgs cl)) in *.
  cbn [created_game game_players game_networking launched].
  unfold InvalidMatchSetup, players_for_map, player_count, requested_players,
    to_unsigned_short in *.
  cbn [launched] in *.
  remember (Z.of_nat (List.length commands) mod 2 ^ 16) as p eqn:Hp.
  remember (getValue 1 (nPlayersArg cl) mod 2 ^ 16) as r eqn:Hr.
  clear Hp Hr.
  destruct (Z.gtb_spec (Z.of_nat (List.length commands)) 1) as [Hc | Hc];
    repeat split; auto; lia.
Qed.

Lemma created_game_players_witness :
  let game :=
    mkHalite 128 128 42 2 (mkNetworking ["./a"; "./b"]%string) false in
  let commands := ["./a"; "./b"]%string in
  1 <= game_players game <= 6 /\
  launched (game_networking game) = commands /\
  launches (fst (main (sample_environment []) (two_bots true))) = commands /\
  commands <> [] /\
  (List.length commands = 1%nat ->
   game_players game
   = getValue 1 (nPlayersArg (two_bots true)) mod 2 ^ 16) /\
  ((1 < List.length commands)%nat ->
   getValue 1 (nPlayersArg (two_bots true)) mod 2 ^ 16 = 1 /\
   game_players game = Z.of_nat (List.length commands) mod 2 ^ 16).
Proof.
  intros game.
  apply (created_game_players (sample_environment []) (two_bots true) game).
  simpl. auto.
Defined.



(** ** Quiet mode *)

(** X18.  In quiet mode, when the constants are not just printed, a run
    writes at most one text on standard output: when it ends with status 0
    that text is the encoding of the statistics of the game, and nothing is
    written before it. *)
Theorem quiet_stdout (env : Environment) (cl : CommandLine) :
  quietSwitch cl = true -> printConstantsSwitch cl = false ->
  let commands := start_commands (overrideSwitch cl) (otherArgs cl) in
  let names :=
    if overrideSwitch cl then Some (names_of (otherArgs cl)) else None in
  let game := created_game env cl (mkNetworking commands) in
  (List.length (stdout_of (fst (main env cl))) <= 1)%nat /\
  (snd (main env cl) = Exit 0 ->
   stdout_of (fst (main env cl))
   = [statistics_out env
        (run_game env game names (game_seed game) (game_id env)
           (negb (noReplaySwitch cl)) (replay_directory cl))]).
Proof.
  intros Hq Hp commands names game.
  destruct (main_cases env cl)
    as [[Hp' _] | [(_ & file & _ & _ & E)
                  | (_ & t0 & _ & _ & Q0 &
                     [(k & message & E)
                     | (_ & _ & _ & [[_ E] | [_ E]])])]].
  - congruence.
  - rewrite E. cbn. split; [lia | discriminate].
  - rewrite E. cbn [fst snd].
    rewrite !stdout_of_app, (Q0 Hq), stdout_of_LaunchBot.
    cbn. split; [lia | discriminate].
  - rewrite E. cbn [fst snd].
    rewrite !stdout_of_app, (Q0 Hq), stdout_of_LaunchBot.
    cbn. split; [lia | discriminate].
  - rewrite E. cbn [fst snd].
    rewrite !stdout_of_app, (Q0 Hq), stdout_of_LaunchBot, Hq.
    cbn. split; [lia | reflexivity].
Qed.

Lemma quiet_stdout_witness :
  (List.length (stdout_of (fst (main (sample_environment []) (two_bots true))))
   <= 1)%nat /\
  (snd (main (sample_environment []) (two_bots true)) = Exit 0 ->
   stdout_of (fst (main (sample_environment []) (two_bots true)))
   = ["{stats}"%string]).
Proof.
  apply (quiet_stdout (sample_environment []) (two_bots true)).
  - reflexivity.
  - reflexivity.
Defined.

(** ** The dimensions and the seed *)

(** X19.  Whenever [main] creates a game, its width and height are the
    requested dimensions reduced modulo 2^16, unless both are 0 after the
    reduction (also when no dimensions are requested): then, the index drawn
    being within the list, the map is square and its side is one of the nine
    listed sizes, between 100 and 256.  A single dimension that reduces to 0
    is kept as 0. *)
Theorem created_game_dimensions (env : Environment) (cl : CommandLine)
  (game : Halite) :
  In (CreateGame game) (fst (main env cl)) ->
  (size_dist env (choose_seed env (seedArg cl)) <= 8)%nat ->
  let w := fst (getValue (0, 0) (dimensionArgs cl)) mod 2 ^ 16 in
  let h := snd (getValue (0, 0) (dimensionArgs cl)) mod 2 ^ 16 in
  0 <= game_width game < 2 ^ 16 /\ 0 <= game_height game < 2 ^ 16 /\
  (w = 0 -> h = 0 ->
   game_width game = game_height game /\
   In (game_width game) mapSizeChoices /\
   100 <= game_width game <= 256) /\
  (w <> 0 \/ h <> 0 -> game_width game = w /\ game_height game = h).
Proof.
  intros Hin Hi w h.
  assert (Hf : In (CreateGame game)
                  (filter is_game_event (fst (main env cl))))
    by (apply filter_In; split; [exact Hin | reflexivity]).
  assert (Hgame : exists networking : Networking,
             game = created_game env cl networking).
  { destruct (main_game_trace env cl)
      as [E | (_ & _ & _ & _ & [[_ E] | [_ E]])];
      rewrite E in Hf; cbn [In] in Hf.
    - contradiction.
    - destruct Hf as [Hg | []]. injection Hg as <-. eauto.
    - destruct Hf as [Hg | [Hg | []]]; [| discriminate Hg].
      injection Hg as <-. eauto. }
  destruct Hgame as [networking ->].
  cbn [created_game game_width game_height].
  unfold map_dimensions, choose_dimensions, to_unsigned_short.
  fold w h.
  pose proof (Z.mod_pos_bound (fst (getValue (0, 0) (dimensionArgs cl)))
                (2 ^ 16) ltac:(lia)) as Bw.
  pose proof (Z.mod_pos_bound (snd (getValue (0, 0) (dimensionArgs cl)))
                (2 ^ 16) ltac:(lia)) as Bh.
  fold w in Bw. fold h in Bh.
  assert (Hin' : In (nth (size_dist env (choose_seed env (seedArg cl)))
                        mapSizeChoices 0) mapSizeChoices)
    by (apply nth_In; cbn; lia).
  assert (Hside : 100 <= nth (size_dist env (choose_seed env (seedArg cl)))
                              mapSizeChoices 0 <= 256).
  { cbn [mapSizeChoices In] in Hin'.
    repeat (destruct Hin' as [<- | Hin']; [lia |]). contradiction. }
  assert (Hin'' : In (nth (size_dist env (choose_seed env (seedArg cl)))
                         mapSizeChoices 0) mapSizeChoices)
    by (apply nth_In; cbn; lia).
  clearbody w h.
  destruct (Z.eqb_spec w 0) as [Ew | Ew]; destruct (Z.eqb_spec h 0) as [Eh | Eh];
    cbn [andb fst snd]; repeat split; auto; try lia; try tauto.
Qed.

Lemma created_game_dimensions_witness :
  let game :=
    mkHalite 128 128 42 2 (mkNetworking ["./a"; "./b"]%string) false in
  let w := fst (getValue (0, 0) (dimensionArgs (two_bots true))) mod 2 ^ 16 in
  let h := snd (getValue (0, 0) (dimensionArgs (two_bots true))) mod 2 ^ 16 in
  0 <= game_width game < 2 ^ 16 /\ 0 <= game_height game < 2 ^ 16 /\
  (w = 0 -> h = 0 ->
   game_width game = game_height game /\
   In (game_width game) mapSizeChoices /\
   100 <= game_width game <= 256) /\
  (w <> 0 \/ h <> 0 -> game_width game = w /\ game_height game = h).
Proof.
  intros game.
  apply (created_game_dimensions (sample_environment []) (two_bots true) game).
  - simpl. auto.
  - simpl. lia.
Defined.

(** Requested dimensions that are multiples of 2^16 count as absent: with
    [-d "65536 131072"] the game gets a square map from the list. *)
Example wrapped_dimensions_random :
  map_dimensions (sample_environment [])
                 (mkCommandLine true false false false None
                                (Some (65536, 131072)) (Some 42) None None
                                false ["./a"]%string)
  = (128, 128).
Proof. reflexivity. Qed.

(** X20.  For a seed argument that fits an unsigned int, the chosen seed
    fits one too; when the argument is 0 or absent and the clock reads a
    time not before the epoch, the seed is the clock reading modulo
    4294967295, so it is never 4294967295. *)
Theorem choose_seed_range (env : Environment) (arg : ValueArg Z) :
  0 <= getValue 0 arg < 2 ^ 32 ->
  0 <= choose_seed env arg < 2 ^ 32 /\
  (getValue 0 arg = 0 -> 0 <= system_clock_microseconds env ->
   choose_seed env arg = system_clock_microseconds env mod 4294967295 /\
   choose_seed env arg < 4294967295).
Proof.
  intros Hv. unfold choose_seed, to_unsigned_int.
  destruct (Z.eqb_spec (getValue 0 arg) 0) as [E | E]; cbn [negb].
  - split.
    + apply Z.mod_pos_bound. lia.
    + intros _ Hc.
      pose proof (Z.mod_pos_bound (system_clock_microseconds env) 4294967295
                    ltac:(lia)) as B.
      rewrite Z.rem_mod_nonneg by lia.
      rewrite Z.mod_small by lia. lia.
  - split; [exact Hv | contradiction].
Qed.

Lemma choose_seed_range_witness :
  0 <= choose_seed (sample_environment []) None < 2 ^ 32 /\
  (getValue 0 None = 0 ->
   0 <= system_clock_microseconds (sample_environment []) ->
   choose_seed (sample_environment []) None
   = system_clock_microseconds (sample_environment []) mod 4294967295 /\
   choose_seed (sample_environment []) None < 4294967295).
Proof.
  apply (choose_seed_range (sample_environment []) None).
  simpl. lia.
Defined.

(* ================================================================== *)
(** * Reading the printed dimensions back *)
(* ================================================================== *)

Lemma append_cancel_l (os a b : string) :
  (os ++ a = os ++ b)%string -> a = b.
Proof.
  induction os as [| ch os IH]; cbn; [auto |].
  intros E. injection E as E. auto.
Qed.

(** Two texts that agree up to and after the first occurrence of a
    character agree part by part. *)
Lemma append_cut (c : ascii) (s1 : string) :
  forall s2 t1 t2 : string,
    occurs c s1 = false -> occurs c s2 = false ->
    (s1 ++ String c t1 = s2 ++ String c t2)%string ->
    s1 = s2 /\ t1 = t2.
Proof.
  induction s1 as [| a s1 IH]; intros [| b s2] t1 t2 H1 H2 E;
    cbn [append occurs] in *.
  - injection E as ->. auto.
  - injection E as <- _. now rewrite Ascii.eqb_refl in H2.
  - injection E as -> _. now rewrite Ascii.eqb_refl in H1.
  - injection E as -> E.
    apply orb_false_iff in H1, H2.
    destruct (IH s2 t1 t2 (proj2 H1) (proj2 H2) E) as [-> ->]. auto.
Qed.

(** A decimal text holds neither a space nor a line end. *)
Lemma digits_no_separator (c : ascii) (d : Decimal.uint) :
  c = " "%char \/ c = ascii_of_nat 10 ->
  occurs c (NilEmpty.string_of_uint d) = false.
Proof.
  intros [-> | ->]; induction d; cbn; auto.
Qed.

Lemma stream_out_Z_no_separator (c : ascii) (z : Z) :
  c = " "%char \/ c = ascii_of_nat 10 -> occurs c (stream_out z) = false.
Proof.
  intros Hc. unfold stream_out, Streamable_Z.
  destruct (Z.to_int z) as [d | d]; cbn [NilZero.string_of_int].
  - destruct d; try apply (digits_no_separator c _ Hc).
    destruct Hc as [-> | ->]; reflexivity.
  - cbn [occurs].
    replace (Ascii.eqb c "-") with false
      by (destruct Hc as [-> | ->]; reflexivity).
    destruct d; try apply (digits_no_separator c _ Hc).
    destruct Hc as [-> | ->]; reflexivity.
Qed.

Lemma to_int_not_nil (z : Z) :
  Z.to_int z <> Decimal.Pos Decimal.Nil /\ Z.to_int z <> Decimal.Neg Decimal.Nil.
Proof.
  destruct z as [| p | p]; cbn; split; try discriminate;
    intros E; injection E as E;
    now apply (DecimalPos.Unsigned.to_uint_nonnil p).
Qed.

(** Printing an integer and reading the text as a decimal gives the integer
    back, so different integers print differently. *)
Lemma stream_out_Z_read_back (z : Z) :
  option_map Z.of_int (NilZero.int_of_string (stream_out z)) = Some z.
Proof.
  unfold stream_out, Streamable_Z.
  destruct (to_int_not_nil z) as [Hp Hn].
  rewrite (NilZero.isi _ Hp Hn). cbn. now rewrite DecimalZ.of_to.
Qed.

Lemma stream_out_Z_inj (z1 z2 : Z) : stream_out z1 = stream_out z2 -> z1 = z2.
Proof.
  intros E. pose proof (stream_out_Z_read_back z1) as R1.
  rewrite E, stream_out_Z_read_back in R1. now injection R1.
Qed.

(** X21.  The dimensions can be read back from the serial format: the text
    written for a map starts with its width in decimal, a space, its height
    in decimal and a line end, so two maps written as the same text have the
    same width, the same height and the same run of cell encodings. *)
Theorem write_map_dimensions_read_back {Cell : Type} `{Streamable Cell}
  (os : ostream) (m1 m2 : Map Cell) :
  write_map os m1 = write_map os m2 ->
  width m1 = width m2 /\ height m1 = height m2 /\
  dense_run (List.concat (grid m1)) = dense_run (List.concat (grid m2)).
Proof.
  unfold write_map, shl. rewrite !write_grid_dense, !append_assoc.
  intros E. apply append_cancel_l in E.
  change (" " ++ ?s)%string with (String " " s) in E.
  apply append_cut in E; try (apply stream_out_Z_no_separator; now left).
  destruct E as [EW E]. apply stream_out_Z_inj in EW.
  unfold endl in E. cbn [append] in E.
  apply append_cut in E; try (apply stream_out_Z_no_separator; now right).
  destruct E as [EH E]. apply stream_out_Z_inj in EH. auto.
Qed.

Lemma write_map_dimensions_read_back_witness :
  width (mkMap 2 2 [[1; 2]; [3; 4]]) = width (mkMap 2 2 [[1; 2; 3]; [4]]) /\
  height (mkMap 2 2 [[1; 2]; [3; 4]]) = height (mkMap 2 2 [[1; 2; 3]; [4]]) /\
  dense_run (List.concat (grid (mkMap 2 2 [[1; 2]; [3; 4]])))
  = dense_run (List.concat (grid (mkMap 2 2 [[1; 2; 3]; [4]]))).
Proof.
  apply (write_map_dimensions_read_back EmptyString).
  reflexivity.
Defined.

Lemma before_cut (c : ascii) (s t : string) :
  occurs c s = false -> before c (s ++ String c t) = s.
Proof.
  induction s as [| a s IH]; cbn [append occurs before].
  - now rewrite Ascii.eqb_refl.
  - intros H. apply orb_false_iff in H. destruct H as [Ha Hs].
    now rewrite Ha, IH.
Qed.

Lemma behind_cut (c : ascii) (s t : string) :
  occurs c s = false -> behind c (s ++ String c t) = t.
Proof.
  induction s as [| a s IH]; cbn [append occurs behind].
  - now rewrite Ascii.eqb_refl.
  - intros H. apply orb_false_iff in H. destruct H as [Ha Hs].
    now rewrite Ha, IH.
Qed.

Lemma stream_out_pair_text (p : Z * Z) :
  stream_out p
  = (stream_out (fst p) ++ String " " (stream_out (snd p)))%string.
Proof.
  unfold stream_out at 1, Streamable_pair, shl. cbn [append].
  unfold stream_out at 2, Streamable_ascii.
  now rewrite append_assoc.
Qed.

(** X22.  A pair of integers is written as the first in decimal, a space and
    the second in decimal; reading the text before the space and the text
    behind it as decimals gives the pair back, so different pairs are
    written differently. *)
Theorem stream_out_pair_read_back (os : ostream) (p : Z * Z) :
  os << p
  = (os ++ (stream_out (fst p) ++ " " ++ stream_out (snd p)))%string /\
  read_pair (stream_out p) = Some p /\
  (forall q : Z * Z, os << p = os << q -> p = q).
Proof.
  assert (Hread : forall r : Z * Z, read_pair (stream_out r) = Some r).
  { intros [a b]. rewrite stream_out_pair_text. cbn [fst snd].
    unfold read_pair.
    rewrite before_cut, behind_cut
      by (apply stream_out_Z_no_separator; now left).
    unfold read_Z. now rewrite !stream_out_Z_read_back. }
  split; [| split; [apply Hread |]].
  - unfold shl. now rewrite stream_out_pair_text.
  - intros q E. unfold shl in E. apply append_cancel_l in E.
    pose proof (Hread p) as Hp. rewrite E, Hread in Hp. now injection Hp.
Qed.

(** The pair (240, -160) is written as its two components in this order. *)
Example stream_out_pair_sample :
  EmptyString << (240, -160) = "240 -160"%string
  /\ read_pair "240 -160" = Some (240, -160).
Proof. split; reflexivity. Qed.
